(** * anna-backend: the reply finalizer, the lead store, the chat relay's
      message assembly and the admin check of [server.js]

    The JavaScript of [server.js] is embedded function by function.
    Strings are sequences of UTF-16 code units, [match] and [replace] with
    the regular expressions of the source are written as the scanners they
    denote, JSON request bodies are an inductive type of values, and
    file and clock effects are explicit inputs and outputs.  The few engine
    builtins whose tables are not part of the program (Unicode case mapping
    and categories outside ASCII, locale collation, the reading and
    printing of numbers) are the fields of the class [Runtime]. *)

From Stdlib Require Import ZArith NArith String Ascii DecimalString Lia.
From stdpp Require Import base list gmap sorting.

Set Warnings "-register-all,-clear-no-such-hyp".

(** ** Strings *)

(** A JavaScript string is a list of code units; [lit] reads an ASCII
    literal. *)
Abbreviation jsstring := (list N).

Definition lit (s : string) : jsstring :=
  List.map N_of_ascii (list_ascii_of_string s).

Definition SPACE : N := 32.
Definition DOT : N := 46.

(** The class [\s] of a regular expression, which is also what
    [String.prototype.trim] strips: WhiteSpace and LineTerminator. *)
Definition isWhiteSpace (c : N) : bool :=
  ((9 <=? c) && (c <=? 13) || (c =? 32) || (c =? 160) || (c =? 5760)
   || (8192 <=? c) && (c <=? 8202) || (c =? 8232) || (c =? 8233)
   || (c =? 8239) || (c =? 8287) || (c =? 12288) || (c =? 65279))%N.

(** The class [[.!?]]. *)
Definition isStop (c : N) : bool :=
  ((c =? 46) || (c =? 33) || (c =? 63))%N.

Fixpoint trimStart (s : jsstring) : jsstring :=
  match s with
  | [] => []
  | c :: s' => if isWhiteSpace c then trimStart s' else s
  end.

Fixpoint trimEnd (s : jsstring) : jsstring :=
  match s with
  | [] => []
  | c :: s' =>
      match trimEnd s' with
      | [] => if isWhiteSpace c then [] else [c]
      | t => c :: t
      end
  end.

(** [s.trim()] *)
Definition trim (s : jsstring) : jsstring := trimEnd (trimStart s).

(** [s.replace(/\s+/g, " ")]: every maximal run of white space becomes one
    space.  [inRun] tells that the previous code unit was white space. *)
Fixpoint collapseFrom (inRun : bool) (s : jsstring) : jsstring :=
  match s with
  | [] => []
  | c :: s' =>
      if isWhiteSpace c
      then (if inRun then collapseFrom true s' else SPACE :: collapseFrom true s')
      else c :: collapseFrom false s'
  end.

Definition collapseSpaces (s : jsstring) : jsstring := collapseFrom false s.

(** [s.lastIndexOf(ch)] for a one-unit needle: the greatest index holding
    [ch], or -1. *)
Fixpoint lastIndexOf (ch : N) (s : jsstring) : Z :=
  match s with
  | [] => (-1)%Z
  | c :: s' =>
      let r := lastIndexOf ch s' in
      if (0 <=? r)%Z then (r + 1)%Z else if (c =? ch)%N then 0%Z else (-1)%Z
  end.

(** [parts.join(sep)] *)
Fixpoint join (sep : jsstring) (parts : list jsstring) : jsstring :=
  match parts with
  | [] => []
  | [p] => p
  | p :: rest => p ++ sep ++ join sep rest
  end.

(** [/[.!?]$/.test(s)]: the last code unit is a terminator. *)
Definition endsWithStop (s : jsstring) : bool :=
  match last s with
  | Some c => isStop c
  | None => false
  end.

(** ** Regular expressions used as whole-string tests

    [/^r$/.test(s)] without flags is language membership; it is decided
    with derivatives. *)
Inductive regex : Type :=
  | Never
  | Eps
  | Class (p : N → bool)
  | Seq (r1 r2 : regex)
  | Or (r1 r2 : regex)
  | Star (r : regex).

Definition Plus (r : regex) : regex := Seq r (Star r).

Fixpoint nullable (r : regex) : bool :=
  match r with
  | Never => false
  | Eps => true
  | Class _ => false
  | Seq r1 r2 => nullable r1 && nullable r2
  | Or r1 r2 => nullable r1 || nullable r2
  | Star _ => true
  end.

Fixpoint deriv (c : N) (r : regex) : regex :=
  match r with
  | Never => Never
  | Eps => Never
  | Class p => if p c then Eps else Never
  | Seq r1 r2 =>
      if nullable r1 then Or (Seq (deriv c r1) r2) (deriv c r2)
      else Seq (deriv c r1) r2
  | Or r1 r2 => Or (deriv c r1) (deriv c r2)
  | Star r1 => Seq (deriv c r1) (Star r1)
  end.

Fixpoint fullMatch (r : regex) (s : jsstring) : bool :=
  match s with
  | [] => nullable r
  | c :: s' => fullMatch (deriv c r) s'
  end.

(** ** JSON values *)

(** An IEEE double: NaN, an infinity, an integer (both zeros are
    [Integral 0]: no operation of the handlers tells them apart and both
    print as 0), or a finite non-integer, which is [m / 2 ^ e] for an odd
    [m] and a positive [e]. *)
Inductive number : Type :=
  | NaN
  | Infinite (negative : bool)
  | Integral (z : Z)
  | Fractional (m : Z) (e : positive).

(** What [JSON.parse] builds, with [VUndefined] for the value of a missing
    property.  The fields of an object are its own properties, looked up by
    key. *)
Inductive value : Type :=
  | VUndefined
  | VNull
  | VBool (b : bool)
  | VNum (n : number)
  | VStr (s : jsstring)
  | VArr (items : list value)
  | VObj (fields : list (jsstring * value)).

Definition isEmpty (s : jsstring) : bool :=
  match s with [] => true | _ => false end.

(** [Boolean(v)] *)
Definition truthy (v : value) : bool :=
  match v with
  | VUndefined | VNull => false
  | VBool b => b
  | VNum NaN => false
  | VNum (Integral z) => negb (z =? 0)%Z
  | VNum _ => true
  | VStr s => negb (isEmpty s)
  | VArr _ | VObj _ => true
  end.

(** [a || b] *)
Definition orElse (a b : value) : value := if truthy a then a else b.

Fixpoint fieldOf (fields : list (jsstring * value)) (key : jsstring) : value :=
  match fields with
  | [] => VUndefined
  | (k, v) :: rest => if bool_decide (k = key) then v else fieldOf rest key
  end.

(** [v[key]] and [v?.key] for the keys the handlers read, none of which is
    a builtin property of a primitive or of an array: anything but an
    object answers [undefined].  (Reading a property of [null] without
    [?.] throws; the places where that can happen, in the comparator of
    [readMatchLeads] and in the loop of the CSV export, are written out
    there.) *)
Definition getProp (v : value) (key : jsstring) : value :=
  match v with
  | VObj fields => fieldOf fields key
  | _ => VUndefined
  end.

(** Whether the object has an own property [key]. *)
Definition hasOwn (fields : list (jsstring * value)) (key : jsstring) : bool :=
  existsb (λ field, bool_decide (field.1 = key)) fields.

(** What [JSON.stringify] makes of a value, read as [JSON.parse] reads it
    back: NaN and the infinities become [null], [undefined] becomes [null]
    in an array and is left out of an object; everything else is kept
    (finite numbers and strings are printed so that they read back the
    same; no value built by [JSON.parse] or by the handlers has a callable
    [toJSON]). *)
Fixpoint jsonValue (v : value) : value :=
  match v with
  | VUndefined | VNull => VNull
  | VBool b => VBool b
  | VNum NaN | VNum (Infinite _) => VNull
  | VNum n => VNum n
  | VStr s => VStr s
  | VArr items => VArr (List.map jsonValue items)
  | VObj fields =>
      VObj (flat_map (λ '(k, v'),
                        match v' with
                        | VUndefined => []
                        | _ => [(k, jsonValue v')]
                        end) fields)
  end.

(** [Number.isInteger(n)], [n >= k] and [n <= k] for an integer literal
    [k]. *)
Definition isInteger (n : number) : bool :=
  match n with Integral _ => true | _ => false end.

Definition numGe (n : number) (k : Z) : bool :=
  match n with
  | NaN => false
  | Infinite negative => negb negative
  | Integral z => (k <=? z)%Z
  | Fractional m e => (k * 2 ^ Z.pos e <=? m)%Z
  end.

Definition numLe (n : number) (k : Z) : bool :=
  match n with
  | NaN => false
  | Infinite negative => negative
  | Integral z => (z <=? k)%Z
  | Fractional m e => (m <=? k * 2 ^ Z.pos e)%Z
  end.

(** ** The engine builtins that are tables of the runtime *)

Class Runtime : Type := {
  (** [String.prototype.toLowerCase] on a string with a non-ASCII unit *)
  unicodeLower : jsstring → jsstring;
  (** membership of a non-ASCII code point in [\p{L}] or [\p{N}] *)
  unicodeLetterOrNumber : N → bool;
  (** [String.prototype.localeCompare]: negative, zero or positive *)
  localeCompare : jsstring → jsstring → Z;
  (** the StringToNumber grammar behind [Number(string)] *)
  stringToNumber : jsstring → number;
  (** [Number.prototype.toString] *)
  numberToString : number → jsstring
}.

Section Program.
Context `{!Runtime}.

(** [String(v)]; [None] is a thrown [TypeError].  The conversion of an
    object first looks for a method [toString]: an object built by
    [JSON.parse] that has an own property [toString] hides the inherited
    method behind a value that cannot be called, and as [valueOf] answers
    the object itself the conversion throws.  An array is joined, each
    element converted in turn, [null] and [undefined] giving nothing. *)
Fixpoint toString (v : value) : option jsstring :=
  match v with
  | VUndefined => Some (lit "undefined")
  | VNull => Some (lit "null")
  | VBool b => Some (if b then lit "true" else lit "false")
  | VNum n => Some (numberToString n)
  | VStr s => Some s
  | VArr items =>
      join (lit ",") <$>
        (fix elements (l : list value) : option (list jsstring) :=
           match l with
           | [] => Some []
           | x :: l' =>
               p ← match x with
                   | VUndefined | VNull => Some []
                   | _ => toString x
                   end;
               ps ← elements l';
               Some (p :: ps)
           end) items
  | VObj fields =>
      if hasOwn fields (lit "toString") then None
      else Some (lit "[object Object]")
  end.

(** [Number(v)]; an array or object is first turned into its string (its
    [valueOf] answers the object itself), which is where it can throw. *)
Definition toNumber (v : value) : option number :=
  match v with
  | VUndefined => Some NaN
  | VNull => Some (Integral 0)
  | VBool b => Some (Integral (if b then 1 else 0))
  | VNum n => Some n
  | VStr s => Some (stringToNumber s)
  | VArr _ | VObj _ => stringToNumber <$> toString v
  end.

(** [s.toLowerCase()]: on ASCII it maps [A-Z] to [a-z]. *)
Definition isAscii (c : N) : bool := (c <? 128)%N.

Definition asciiLower (c : N) : N :=
  if ((65 <=? c) && (c <=? 90))%N then (c + 32)%N else c.

Definition toLowerCase (s : jsstring) : jsstring :=
  if forallb isAscii s then List.map asciiLower s else unicodeLower s.

(** [\p{L}] or [\p{N}] at a code point. *)
Definition asciiLetterOrNumber (c : N) : bool :=
  ((48 <=? c) && (c <=? 57) || (65 <=? c) && (c <=? 90)
   || (97 <=? c) && (c <=? 122))%N.

Definition isLetterOrNumber (cp : N) : bool :=
  if isAscii cp then asciiLetterOrNumber cp else unicodeLetterOrNumber cp.

Definition isHighSurrogate (c : N) : bool := ((55296 <=? c) && (c <=? 56319))%N.
Definition isLowSurrogate (c : N) : bool := ((56320 <=? c) && (c <=? 57343))%N.

Definition codePointOf (hi lo : N) : N :=
  (65536 + (hi - 55296) * 1024 + (lo - 56320))%N.

(** The class [[^\p{L}\p{N}\s]] complemented: what the key keeps. *)
Definition keptInKey (cp : N) : bool := isLetterOrNumber cp || isWhiteSpace cp.

(** [s.replace(/[^\p{L}\p{N}\s]/gu, empty)]: every match is deleted.  Under
    the [u] flag the pattern walks code points, so a surrogate pair is kept
    or removed as one. *)
Fixpoint stripSymbols (s : jsstring) : jsstring :=
  match s with
  | [] => []
  | hi :: rest =>
      match rest with
      | lo :: rest' =>
          if isHighSurrogate hi && isLowSurrogate lo
          then (if keptInKey (codePointOf hi lo)
                then hi :: lo :: stripSymbols rest' else stripSymbols rest')
          else (if keptInKey hi then hi :: stripSymbols rest else stripSymbols rest)
      | [] => if keptInKey hi then [hi] else []
      end
  end.

(** ** finalizeReply *)

(** [normalized.match(/[^.!?]+[.!?]+/g) || []]: the successive matches, left
    to right.  [run] is the [[^.!?]+] read so far and [stops] the [[.!?]+]
    after it; a terminator met before any run cannot start a match and is
    skipped, and a run that reaches the end of the string matches
    nothing. *)
Fixpoint matchSentences (run stops s : jsstring) : list jsstring :=
  match s with
  | [] => if isEmpty stops then [] else [run ++ stops]
  | c :: s' =>
      if isStop c
      then (if isEmpty run then matchSentences [] [] s'
            else matchSentences run (stops ++ [c]) s')
      else (if isEmpty stops then matchSentences (run ++ [c]) [] s'
            else (run ++ stops) :: matchSentences [c] [] s')
  end.

Definition sentenceParts (normalized : jsstring) : list jsstring :=
  matchSentences [] [] normalized.

(** The deduplication key of a sentence. *)
Definition sentenceKey (sentence : jsstring) : jsstring :=
  trim (collapseSpaces (stripSymbols (toLowerCase sentence))).

(** The loop over [sentenceParts], with the set [seen] of keys. *)
Fixpoint dedupe (seen : gset jsstring) (parts : list jsstring) : list jsstring :=
  match parts with
  | [] => []
  | sentence :: rest =>
      let key := sentenceKey sentence in
      if isEmpty key || bool_decide (key ∈ seen)
      then dedupe seen rest
      else trim sentence :: dedupe ({[ key ]} ∪ seen) rest
  end.

Definition uniqueSentences (normalized : jsstring) : list jsstring :=
  dedupe ∅ (sentenceParts normalized).

(** [Math.max(s.lastIndexOf("."), s.lastIndexOf("!"), s.lastIndexOf("?"))] *)
Definition lastStop (s : jsstring) : Z :=
  Z.max (lastIndexOf 46 s) (Z.max (lastIndexOf 33 s) (lastIndexOf 63 s)).

(** The candidate before any cut: the first [maxSentences] surviving
    sentences, or the normalized text when no sentence survived. *)
Definition candidateOf (normalized : jsstring) (maxSentences : nat) : jsstring :=
  let unique := uniqueSentences normalized in
  if (0 <? length unique)%nat
  then trim (join [SPACE] (take maxSentences unique))
  else normalized.

(** [if (candidate.length > maxChars) { ... }] *)
Definition clip (candidate : jsstring) (maxChars : nat) : jsstring :=
  if (maxChars <? length candidate)%nat
  then
    let short := take maxChars candidate in
    let stop := lastStop short in
    trim (if (40 <? stop)%Z then take (Z.to_nat (stop + 1)) short else short)
  else candidate.

(** [if (!/[.!?]$/.test(candidate)) { ... }] *)
Definition terminate (candidate : jsstring) : jsstring :=
  if negb (endsWithStop candidate)
  then
    let stop := lastStop candidate in
    trim (if (0 <? stop)%Z then take (Z.to_nat (stop + 1)) candidate
          else candidate ++ [DOT])
  else candidate.

(** [finalizeReply(text, maxChars = 520, maxSentences = 4)].  The two
    bounds are counts. *)
Definition finalizeReply (text : value) (maxChars maxSentences : nat) : jsstring :=
  match text with
  | VStr s =>
      if isEmpty s then []
      else
        let normalized := trim (collapseSpaces s) in
        if isEmpty normalized then []
        else terminate (clip (candidateOf normalized maxSentences) maxChars)
  | _ => []
  end.

(** ** The lead store *)

(** What [fs.readFile] followed by [JSON.parse] comes to: a read error with
    its [code], a text that does not parse (a [SyntaxError], which has no
    [code]), or the parsed document. *)
Inductive readResult : Type :=
  | ReadError (code : jsstring)
  | ParseError
  | Parsed (doc : value).

Definition ENOENT : jsstring := lit "ENOENT".

(** The disk and clock as one request meets them. *)
Record env : Type := {
  canMkdir : bool;
  fileRead : readResult;
  canWrite : bool;
  now : jsstring
}.

(** [saveMatchLead(lead)]: [Some leads] is the array that reaches the file
    through [JSON.stringify], [None] a thrown error. *)
Definition saveMatchLead (lead : value) (e : env) : option (list value) :=
  if negb (canMkdir e) then None
  else
    let writeFile (leads : list value) :=
      if canWrite e then Some (List.map jsonValue leads) else None in
    match fileRead e with
    | Parsed (VArr parsed) => writeFile (parsed ++ [lead])
    | Parsed _ => writeFile [lead]
    | ReadError code =>
        if bool_decide (code = ENOENT) then writeFile [lead] else None
    | ParseError => None
    end.

(** [String(lead.createdAt || empty)], with the empty string for a falsy
    [createdAt]; [None] is a thrown [TypeError], for a lead that is [null]
    (it has no properties to read) and for a [createdAt] that [String]
    throws on. *)
Definition createdAtKey (lead : value) : option jsstring :=
  match lead with
  | VNull | VUndefined => None
  | _ => toString (orElse (getProp lead (lit "createdAt")) (VStr []))
  end.

(** The comparator handed to [sort]: it reads the key of [b], then that of
    [a]. *)
Definition byCreatedAtDesc (a b : value) : option Z :=
  kb ← createdAtKey b;
  ka ← createdAtKey a;
  Some (localeCompare kb ka).

(** A stable sort by insertion: [x] goes in front of the first element it
    does not sort after.  A comparison that throws makes the sort throw. *)
Fixpoint insertSorted (compare : value → value → option Z) (x : value)
    (sorted : list value) : option (list value) :=
  match sorted with
  | [] => Some [x]
  | y :: rest =>
      c ← compare x y;
      if (c <=? 0)%Z then Some (x :: sorted)
      else cons y <$> insertSorted compare x rest
  end.

Definition sortBy (compare : value → value → option Z) (l : list value)
    : option (list value) :=
  foldr (λ x sorted, sorted ≫= insertSorted compare x) (Some []) l.

Definition isUndefined (v : value) : bool :=
  match v with VUndefined => true | _ => false end.

(** The elements of an array that [sort] compares: all but [undefined]. *)
Definition comparedItems (l : list value) : list value :=
  List.filter (λ v, negb (isUndefined v)) l.

(** [array.sort(compare)], which is stable; under a consistent comparator
    every stable sort gives the same result.  An element that is
    [undefined] is not handed to the comparator and goes last. *)
Definition sortArray (compare : value → value → option Z) (l : list value)
    : option (list value) :=
  sorted ← sortBy compare (comparedItems l);
  Some (sorted ++ List.filter isUndefined l).

(** [readMatchLeads()]: [None] is a thrown error; what the comparator
    throws has no [code] and is thrown on.  (A single element is not
    compared.) *)
Definition readMatchLeads (r : readResult) : option (list value) :=
  match r with
  | Parsed (VArr parsed) => sortArray byCreatedAtDesc parsed
  | Parsed _ => Some []
  | ReadError code => if bool_decide (code = ENOENT) then Some [] else None
  | ParseError => None
  end.

(** ** The admin check *)

(** [isAdminAuthorized(req)], with [header] the value of
    [req.headers["x-admin-token"]] (a string when the header was sent) and
    [ADMIN_TOKEN] the configured secret, the empty string when unset. *)
Definition isAdminAuthorized (ADMIN_TOKEN : jsstring)
    (header : option jsstring) : bool :=
  match toString (orElse (from_option VStr VUndefined header) (VStr [])) with
  | Some text =>
      let token := trim text in
      negb (isEmpty ADMIN_TOKEN) && bool_decide (token = ADMIN_TOKEN)
  | None => false (* [String] does not throw on a string *)
  end.

(** ** POST /api/match-lead *)

Definition notSpaceOrAt (c : N) : bool := negb (isWhiteSpace c || (c =? 64)%N).

(** [/^[^\s@]+@[^\s@]+\.[^\s@]+$/] *)
Definition emailPattern : regex :=
  Seq (Plus (Class notSpaceOrAt))
    (Seq (Class (N.eqb 64))
       (Seq (Plus (Class notSpaceOrAt))
          (Seq (Class (N.eqb 46)) (Plus (Class notSpaceOrAt))))).

(** [String(req.body?.email || empty).trim().toLowerCase()] *)
Definition emailOf (body : value) : option jsstring :=
  text ← toString (orElse (getProp body (lit "email")) (VStr []));
  Some (toLowerCase (trim text)).

Definition consentOf (body : value) : bool :=
  truthy (getProp body (lit "consent")).

Definition answersOf (body : value) : value :=
  orElse (getProp body (lit "answers")) (VObj []).

(** [Number(req.body?.score || 0)] and [Number(req.body?.percentage || 0)] *)
Definition scoreOf (body : value) : option number :=
  toNumber (orElse (getProp body (lit "score")) (VNum (Integral 0))).

Definition percentageOf (body : value) : option number :=
  toNumber (orElse (getProp body (lit "percentage")) (VNum (Integral 0))).

Definition answerKeys : list jsstring :=
  [lit "q1"; lit "q2"; lit "q3"; lit "q4"].

(** The callback of [every]. *)
Definition answerOk (answers : value) (key : jsstring) : option bool :=
  value ← toNumber (getProp answers key);
  Some (isInteger value && numGe value 1 && numLe value 5).

(** [keys.every(callback)]: it stops at the first key the callback
    refuses, and throws when the callback does. *)
Fixpoint every (callback : jsstring → option bool) (keys : list jsstring)
    : option bool :=
  match keys with
  | [] => Some true
  | key :: rest =>
      match callback key with
      | Some true => every callback rest
      | Some false => Some false
      | None => None
      end
  end.

Definition emailOk (email : jsstring) : bool := fullMatch emailPattern email.

Definition validAnswers (body : value) : option bool :=
  every (answerOk (answersOf body)) answerKeys.

(** The constants of lines 105 to 114 that can throw, in the order in
    which they are computed: [email], [score], [percentage],
    [validAnswers]. *)
Definition readFields (body : value)
    : option (jsstring * number * number * bool) :=
  email ← emailOf body;
  score ← scoreOf body;
  percentage ← percentageOf body;
  valid ← validAnswers body;
  Some (email, score, percentage, valid).

(** The object handed to [saveMatchLead]; the answers are converted once
    more. *)
Definition leadOf (email : jsstring) (consent : bool) (answers : value)
    (score percentage : number) (createdAt : jsstring) : option value :=
  q ← mapM (λ key, n ← toNumber (getProp answers key); Some (key, VNum n))
        answerKeys;
  Some (VObj [ (lit "email", VStr email);
               (lit "consent", VBool consent);
               (lit "answers", VObj q);
               (lit "score", VNum score);
               (lit "percentage", VNum percentage);
               (lit "createdAt", VStr createdAt);
               (lit "source", VStr (lit "match-form")) ]).

(** The three 400 answers, by the check that failed. *)
Inductive rejection : Type :=
  | InvalidEmail
  | ConsentRequired
  | IncompleteAnswers.

(** What the handler answers and, when it wrote the file, what it wrote. *)
Record leadOutcome : Type := {
  status : Z;
  rejected : option rejection;
  written : option (list value)
}.

(** The handler; whatever is thrown inside its [try] is answered 500. *)
Definition matchLeadHandler (body : value) (e : env) : leadOutcome :=
  let failed := {| status := 500; rejected := None; written := None |} in
  match readFields body with
  | None => failed
  | Some (email, score, percentage, valid) =>
      if negb (emailOk email)
      then {| status := 400; rejected := Some InvalidEmail; written := None |}
      else if negb (consentOf body)
      then {| status := 400; rejected := Some ConsentRequired;
              written := None |}
      else if negb valid
      then {| status := 400; rejected := Some IncompleteAnswers;
              written := None |}
      else
        match lead ← leadOf email (consentOf body) (answersOf body)
                       score percentage (now e);
              saveMatchLead lead e with
        | Some leads =>
            {| status := 200; rejected := None; written := Some leads |}
        | None => failed
        end
  end.

(** ** POST /api/chat: the messages sent upstream *)

Inductive role : Type := User | Assistant | System.

Record chatMessage : Type := { msgRole : role; content : jsstring }.

(** [item && (item.role === "user" || item.role === "assistant") &&
    typeof item.content === "string"], with the entry it maps to. *)
Definition historyItem (item : value) : option chatMessage :=
  if truthy item then
    match getProp item (lit "role"), getProp item (lit "content") with
    | VStr r, VStr c =>
        if bool_decide (r = lit "user")
        then Some {| msgRole := User; content := c |}
        else if bool_decide (r = lit "assistant")
        then Some {| msgRole := Assistant; content := c |}
        else None
    | _, _ => None
    end
  else None.

(** [validatedHistory] after the [every]/[map]: [None] is [null]. *)
Definition validateHistory (incomingHistory : value) : option (list chatMessage) :=
  match incomingHistory with
  | VArr items => mapM historyItem items
  | _ => None
  end.

(** [validatedHistory.slice(-12)] when longer than 12. *)
Definition capHistory (h : list chatMessage) : list chatMessage :=
  if (12 <? length h)%nat then drop (length h - 12) h else h.

(** [content: item.content.slice(0, 800)] *)
Definition truncateHistory (h : list chatMessage) : list chatMessage :=
  List.map (fun item =>
    {| msgRole := msgRole item; content := take 800 (content item) |}) h.

Definition acceptedHistory (incomingHistory : value) : option (list chatMessage) :=
  truncateHistory <$> (capHistory <$> validateHistory incomingHistory).

Definition isUser (r : role) : bool :=
  match r with User => true | _ => false end.

(** [validatedHistory.some(item => item.role === "user" &&
    item.content.trim() === message)] *)
Definition hasLatestUser (message : jsstring) (h : list chatMessage) : bool :=
  existsb (fun item =>
    isUser (msgRole item) && bool_decide (trim (content item) = message)) h.

(** The array [messages] built from the two prompts, the accepted history
    and the trimmed message. *)
Definition systemMessages (SYSTEM_PROMPT KNOWLEDGE_BLOCK : jsstring)
    : list chatMessage :=
  [ {| msgRole := System; content := SYSTEM_PROMPT |};
    {| msgRole := System; content := KNOWLEDGE_BLOCK |} ].

Definition assembleMessages (SYSTEM_PROMPT KNOWLEDGE_BLOCK message : jsstring)
    (validatedHistory : option (list chatMessage)) : list chatMessage :=
  let messages := systemMessages SYSTEM_PROMPT KNOWLEDGE_BLOCK in
  let userTurn := {| msgRole := User; content := message |} in
  match validatedHistory with
  | Some h =>
      if (0 <? length h)%nat
      then (if negb (hasLatestUser message h)
            then (messages ++ h) ++ [userTurn]
            else messages ++ h)
      else messages ++ [userTurn]
  | None => messages ++ [userTurn]
  end.

(** How far the handler gets before the upstream call. *)
Inductive chatRequest : Type :=
  | Throws
  | NoMessage
  | Upstream (messages : list chatMessage).

(** The handler up to [fetch]: [message] is
    [(req.body && (req.body.message || req.body.prompt || req.body.text))?.trim()],
    where calling [trim] on anything but a string, [null] or [undefined]
    throws. *)
Definition chatHandler (SYSTEM_PROMPT KNOWLEDGE_BLOCK : jsstring)
    (body : value) : chatRequest :=
  let raw :=
    if truthy body
    then orElse (orElse (getProp body (lit "message"))
                        (getProp body (lit "prompt")))
                (getProp body (lit "text"))
    else body in
  match raw with
  | VUndefined | VNull => NoMessage
  | VStr s =>
      let message := trim s in
      if isEmpty message then NoMessage
      else Upstream (assembleMessages SYSTEM_PROMPT KNOWLEDGE_BLOCK message
                       (acceptedHistory (getProp body (lit "history"))))
  | _ => Throws
  end.

(** ** POST /api/chat: the answer made of the upstream response *)

(** What [fetch] and [groqRes.json()] come to: either of them throws, or
    there is a response with its [ok] flag and its parsed body. *)
Inductive upstreamResult : Type :=
  | FetchThrows
  | BodyUnreadable
  | Answered (ok : bool) (data : value).

(** [v?.[0]]: the first element of an array, the first unit of a string,
    the property ["0"] of an object. *)
Definition firstOf (v : value) : value :=
  match v with
  | VArr (x :: _) => x
  | VStr (c :: _) => VStr [c]
  | VObj fields => fieldOf fields (lit "0")
  | _ => VUndefined
  end.

(** [data?.choices?.[0]?.message?.content] *)
Definition rawReplyOf (data : value) : value :=
  getProp (getProp (firstOf (getProp data (lit "choices"))) (lit "message"))
    (lit "content").

Inductive chatAnswer : Type :=
  | Reply (reply : jsstring)
  | UpstreamError
  | EmptyReply
  | InternalError.

Definition chatStatus (a : chatAnswer) : Z :=
  match a with
  | Reply _ => 200
  | UpstreamError | EmptyReply => 502
  | InternalError => 500
  end.

(** The handler from [fetch] on, inside its [try]. *)
Definition chatReply (upstream : upstreamResult) : chatAnswer :=
  match upstream with
  | FetchThrows | BodyUnreadable => InternalError
  | Answered ok data =>
      if negb ok then UpstreamError
      else
        let rawReply := rawReplyOf data in
        if negb (truthy rawReply) then EmptyReply
        else Reply (finalizeReply rawReply 520 4)
  end.

(** ** GET /api/admin/leads and /api/admin/leads.csv *)

(** [Leads leads count] is the body [{leads, count}] as [res.json] sends
    it, through [JSON.stringify]. *)
Inductive adminAnswer : Type :=
  | Unauthorized
  | Leads (leads : list value) (count : nat)
  | ReadFailed.

Definition adminStatus (a : adminAnswer) : Z :=
  match a with
  | Unauthorized => 401
  | Leads _ _ => 200
  | ReadFailed => 500
  end.

Definition adminLeadsHandler (ADMIN_TOKEN : jsstring)
    (header : option jsstring) (r : readResult) : adminAnswer :=
  if negb (isAdminAuthorized ADMIN_TOKEN header) then Unauthorized
  else
    match readMatchLeads r with
    | Some leads => Leads (List.map jsonValue leads) (length leads)
    | None => ReadFailed
    end.

Definition QUOTE : N := 34.
Definition COMMA : N := 44.
Definition NEWLINE : N := 10.

(** [s.replace] of every double quote by two double quotes. *)
Definition escapeQuotes (s : jsstring) : jsstring :=
  flat_map (λ c, if (c =? QUOTE)%N then [QUOTE; QUOTE] else [c]) s.

Definition csvHeader : jsstring :=
  lit "email,score,percentage,createdAt,q1,q2,q3,q4".

(** [String(lead.key || empty).replace(...)] between double quotes. *)
Definition csvText (lead : value) (key : jsstring) : option jsstring :=
  text ← toString (orElse (getProp lead key) (VStr []));
  Some ([QUOTE] ++ escapeQuotes text ++ [QUOTE]).

(** [Number(v || 0)] as the template literal prints it. *)
Definition csvNumber (v : value) : option jsstring :=
  n ← toNumber (orElse v (VNum (Integral 0)));
  Some (numberToString n).

(** The line pushed for one lead, its eight fields computed in the order
    of [row]; [None] is a thrown [TypeError]: reading [lead.email] off
    [null], or a conversion that throws.  [lead.answers?.q1] is
    [undefined] when [answers] is [null] or missing, which is what
    [getProp] answers. *)
Definition csvRow (lead : value) : option jsstring :=
  match lead with
  | VNull | VUndefined => None
  | _ =>
      let answers := getProp lead (lit "answers") in
      email ← csvText lead (lit "email");
      score ← csvNumber (getProp lead (lit "score"));
      percentage ← csvNumber (getProp lead (lit "percentage"));
      createdAt ← csvText lead (lit "createdAt");
      q1 ← csvNumber (getProp answers (lit "q1"));
      q2 ← csvNumber (getProp answers (lit "q2"));
      q3 ← csvNumber (getProp answers (lit "q3"));
      q4 ← csvNumber (getProp answers (lit "q4"));
      Some (join [COMMA]
              [email; score; percentage; createdAt; q1; q2; q3; q4])
  end.

Inductive csvAnswer : Type :=
  | CsvUnauthorized
  | Csv (body : jsstring)
  | ExportFailed.

Definition csvStatus (a : csvAnswer) : Z :=
  match a with
  | CsvUnauthorized => 401
  | Csv _ => 200
  | ExportFailed => 500
  end.

Definition adminCsvHandler (ADMIN_TOKEN : jsstring)
    (header : option jsstring) (r : readResult) : csvAnswer :=
  if negb (isAdminAuthorized ADMIN_TOKEN header) then CsvUnauthorized
  else
    match readMatchLeads r with
    | Some leads =>
        match mapM csvRow leads with
        | Some rows => Csv (join [NEWLINE] (csvHeader :: rows))
        | None => ExportFailed
        end
    | None => ExportFailed
    end.

End Program.

(** ** A runtime for ASCII data

    The builtins on the inputs the examples below run on: strings of ASCII
    units, integers, and fractions with so few binary digits that their
    shortest decimal is their full expansion (12.5, 12.25).  Case mapping
    and the letter and number classes have nothing to add outside ASCII
    here; numbers are read and printed in decimal; the collation orders
    strings unit by unit with the letters
    in alphabetical order, lower case before upper case (a, A, b, B, ...)
    and after every other unit, which is how locale-aware collations order
    single letters, unlike the order of the code units (A-Z before a-z). *)

Definition collationWeight (c : N) : Z :=
  if ((97 <=? c) && (c <=? 122))%N then 65536 + 2 * (Z.of_N c - 97)
  else if ((65 <=? c) && (c <=? 90))%N then 65536 + 2 * (Z.of_N c - 65) + 1
  else Z.of_N c.

Fixpoint collate (s t : jsstring) : Z :=
  match s, t with
  | [], [] => 0
  | [], _ :: _ => -1
  | _ :: _, [] => 1
  | a :: s', b :: t' =>
      match (collationWeight a ?= collationWeight b)%Z with
      | Lt => -1
      | Gt => 1
      | Eq => collate s' t'
      end
  end.

Definition isDigit (c : N) : bool := ((48 <=? c) && (c <=? 57))%N.

Definition decimalValue (s : jsstring) : Z :=
  foldl (λ acc c, 10 * acc + (Z.of_N c - 48))%Z 0%Z s.

Definition decimalToNumber (s : jsstring) : number :=
  if forallb isDigit s then Integral (decimalValue s) else NaN.

(** The digits of [n], at least [width] of them. *)
Definition digits (width : nat) (n : Z) : jsstring :=
  let text := lit (NilZero.string_of_int (Z.to_int n)) in
  replicate (width - length text) 48%N ++ text.

(** [m / 2 ^ e] written out in full: its integer part, a point, and its
    [e] decimals. *)
Definition fractionToDecimal (m : Z) (e : positive) : jsstring :=
  let scale := (2 ^ Z.pos e)%Z in
  let whole := (Z.abs m / scale)%Z in
  let part := ((Z.abs m mod scale) * 5 ^ Z.pos e)%Z in
  (if (m <? 0)%Z then lit "-" else [])
    ++ digits 1 whole ++ lit "." ++ digits (Pos.to_nat e) part.

Definition numberToDecimal (n : number) : jsstring :=
  match n with
  | NaN => lit "NaN"
  | Infinite negative => if negative then lit "-Infinity" else lit "Infinity"
  | Integral z => lit (NilZero.string_of_int (Z.to_int z))
  | Fractional m e => fractionToDecimal m e
  end.

Definition asciiRuntime : Runtime := {|
  unicodeLower := id;
  unicodeLetterOrNumber := λ _, false;
  localeCompare := collate;
  stringToNumber := decimalToNumber;
  numberToString := numberToDecimal
|}.

(** ** Predicates of the statements *)

(** No terminator occurs in [s]. *)
Definition stopFree (s : jsstring) : bool :=
  forallb (λ c, negb (isStop c)) s.

(** A string is clean at the front when it does not start with white
    space. *)
Definition cleanStart (s : jsstring) : Prop :=
  match s with
  | [] => True
  | c :: _ => isWhiteSpace c = false
  end.

(** Every white-space unit of [s] is a single space standing alone;
    [afterSpace] tells that the unit before [s] was white space. *)
Fixpoint tidyFrom (afterSpace : bool) (s : jsstring) : bool :=
  match s with
  | [] => true
  | c :: s' =>
      if isWhiteSpace c
      then (c =? SPACE)%N && negb afterSpace && tidyFrom true s'
      else tidyFrom false s'
  end.

(** The order [<] of JavaScript strings: unit by unit, by code unit.  This
    is the "plain lexicographic string comparison" of the specification,
    against which [localeCompare] is compared below. *)
Fixpoint codeUnitCompare (s t : jsstring) : Z :=
  match s, t with
  | [], [] => 0
  | [], _ :: _ => -1
  | _ :: _, [] => 1
  | a :: s', b :: t' =>
      match (a ?= b)%N with
      | Lt => -1
      | Gt => 1
      | Eq => codeUnitCompare s' t'
      end
  end.

Section Collation.
Context `{!Runtime}.

(** The comparator of the specification's words: descending [createdAt] in
    code-unit order. *)
Definition specByCreatedAtDesc (a b : value) : option Z :=
  kb ← createdAtKey b;
  ka ← createdAtKey a;
  Some (codeUnitCompare kb ka).

(** [localeCompare] is a consistent comparator: a total preorder. *)
Definition collationTotal : Prop :=
  ∀ s t, (localeCompare s t ≤ 0 ∨ localeCompare t s ≤ 0)%Z.

Definition collationTransitive : Prop :=
  ∀ s t u, (localeCompare s t ≤ 0 → localeCompare t u ≤ 0
            → localeCompare s u ≤ 0)%Z.

(** A sequence of [createdAt] strings in which none collates after an
    earlier one: descending in the order of [localeCompare]. *)
Definition descending (stamps : list jsstring) : Prop :=
  StronglySorted (λ s t, (localeCompare t s ≤ 0)%Z) stamps.

End Collation.

(** The language of a pattern. *)
Inductive matches : regex → jsstring → Prop :=
  | matches_eps : matches Eps []
  | matches_class p c : p c = true → matches (Class p) [c]
  | matches_seq r1 r2 s1 s2 :
      matches r1 s1 → matches r2 s2 → matches (Seq r1 r2) (s1 ++ s2)
  | matches_or_l r1 r2 s : matches r1 s → matches (Or r1 r2) s
  | matches_or_r r1 r2 s : matches r2 s → matches (Or r1 r2) s
  | matches_star_nil r : matches (Star r) []
  | matches_star_cons r s1 s2 :
      matches r s1 → matches (Star r) s2 → matches (Star r) (s1 ++ s2).

(** The [createdAt] of a stored lead as the specification reads it: the string
    held by the property, or the empty string when a lead other than
    [null] has no such property or a falsy one. *)
Definition stamped (lead : value) (stamp : jsstring) : Prop :=
  getProp lead (lit "createdAt") = VStr stamp
  ∨ (stamp = [] ∧ truthy (getProp lead (lit "createdAt")) = false
     ∧ lead ≠ VNull ∧ lead ≠ VUndefined).

(** A history entry that already is the new message: a user turn whose
    trimmed content equals it. *)
Definition repeatsMessage (message : jsstring) (item : chatMessage) : Prop :=
  msgRole item = User ∧ trim (content item) = message.

(** ** Sample data *)

Definition field (key : string) (v : value) : jsstring * value := (lit key, v).

Definition str (s : string) : value := VStr (lit s).

(** A chat request whose history holds the new message "hi" as an earlier
    user turn, followed by the assistant's answer. *)
Definition repeatedTurnHistory : value :=
  VArr [ VObj [field "role" (str "user"); field "content" (str "hi")];
         VObj [field "role" (str "assistant"); field "content" (str "hello")] ].

Definition repeatedTurnAccepted : list chatMessage :=
  [ {| msgRole := User; content := lit "hi" |};
    {| msgRole := Assistant; content := lit "hello" |} ].

Definition repeatedTurnBody : value :=
  VObj [field "message" (str "hi"); field "history" repeatedTurnHistory].

(** Lead submissions. *)
Definition submission (email consent q1 q2 q3 q4 : value) : value :=
  VObj [ field "email" email; field "consent" consent;
         field "answers"
           (VObj [field "q1" q1; field "q2" q2; field "q3" q3; field "q4" q4]);
         field "score" (VNum (Integral 12));
         field "percentage" (VNum (Integral 60)) ].

Definition int (z : Z) : value := VNum (Integral z).

(** An object on which [String] and [Number] throw: its property
    [toString] is no function. *)
Definition unprintable : value := VObj [field "toString" (int 0)].

(** A submission with an invalid email and such a [score]. *)
Definition unprintableScore : value :=
  VObj [ field "email" (str "not-an-email"); field "score" unprintable ].

(** A disk without the lead file yet, on which every operation succeeds. *)
Definition freshDisk : env :=
  {| canMkdir := true; fileRead := ReadError ENOENT; canWrite := true;
     now := lit "2024-01-02T03:04:05.678Z" |}.

(** Stored leads with the given [createdAt]. *)
Definition leadAt (createdAt : string) : value :=
  VObj [field "email" (str "a@b.se"); field "createdAt" (str createdAt)].

(** A lead as the handler stores it, with answers 1, 2, 3, 4 and
    percentage 60. *)
Definition storedLead (email createdAt : string) (score : number) : value :=
  VObj [ field "email" (str email); field "consent" (VBool true);
         field "answers"
           (VObj [field "q1" (int 1); field "q2" (int 2);
                  field "q3" (int 3); field "q4" (int 4)]);
         field "score" (VNum score);
         field "percentage" (int 60);
         field "createdAt" (str createdAt);
         field "source" (str "match-form") ].

(** Two stored leads, with scores 12.5 and 12.25. *)
Definition olderLead : value :=
  storedLead "a@b.se" "2024-01-01T10:00:00.000Z" (Fractional 25 1).

Definition newerLead : value :=
  storedLead "c@d.se" "2024-01-02T10:00:00.000Z" (Fractional 49 2).

(** A lead whose score is not a number. *)
Definition unscoredLead : value :=
  storedLead "e@f.se" "2024-01-03T10:00:00.000Z" NaN.

(** A disk whose lead file holds the array [stored], on which every
    operation succeeds. *)
Definition diskWith (stored : list value) : env :=
  {| canMkdir := true; fileRead := Parsed (VArr stored); canWrite := true;
     now := lit "2024-01-02T03:04:05.678Z" |}.

(** A text of 45 letters, a full stop, 600 letters and a full stop. *)
Definition longText : jsstring :=
  replicate 45 97%N ++ [DOT] ++ replicate 600 98%N ++ [DOT].

(** A sentence-like segment: a non-empty run without terminators followed
    by one or more terminators, as the pattern [[^.!?]+[.!?]+] reads it. *)
Definition isSentence (p : jsstring) : Prop :=
  ∃ run stops, p = run ++ stops
               ∧ run ≠ [] ∧ stopFree run = true
               ∧ stops ≠ [] ∧ forallb isStop stops = true.

(** Every unit of [s] is white space. *)
Definition blank (s : jsstring) : bool := forallb isWhiteSpace s.

(** How a CSV reader takes a quoted field back: two double quotes stand
    for one. *)
Fixpoint unescapeQuotes (s : jsstring) : jsstring :=
  match s with
  | [] => []
  | c :: s' =>
      match s' with
      | d :: s'' =>
          if ((c =? QUOTE) && (d =? QUOTE))%N then QUOTE :: unescapeQuotes s''
          else c :: unescapeQuotes s'
      | [] => [c]
      end
  end.

(** A value as [JSON.parse] reads it from what [JSON.stringify] wrote:
    it holds neither [undefined] nor a number that is not finite. *)
Fixpoint isJson (v : value) : bool :=
  match v with
  | VUndefined => false
  | VNull | VBool _ | VStr _ => true
  | VNum NaN | VNum (Infinite _) => false
  | VNum _ => true
  | VArr items => forallb isJson items
  | VObj fields => forallb (λ '(_, v'), isJson v') fields
  end.

(** A disk on which a save goes through: the directory can be made, the
    file is absent or holds text that parses, and the write succeeds. *)
Definition writable (e : env) : Prop :=
  canMkdir e = true ∧ canWrite e = true ∧ fileRead e ≠ ParseError
  ∧ ∀ code, fileRead e = ReadError code → code = ENOENT.


(** ** Tactics *)

(** Splits a statement about the outcome into its cases and closes each
    with the facts at hand. *)
Ltac settle_outcome :=
  repeat match goal with
  | |- _ ∧ _ => split
  | |- _ ↔ _ => split
  | |- _ → _ => intros ?
  | H : _ ∧ _ |- _ => destruct H
  | H : ∃ _, _ |- _ => destruct H
  | H : _ ∨ _ |- _ => destruct H
  | H : Some _ = Some _ |- _ => injection H as H; try subst
  end; try done; try congruence; eauto 15.

(** * Properties *)

(** ** White space, terminators and trimming *)

Lemma isStop_cases c : isStop c = true → c = 46%N ∨ c = 33%N ∨ c = 63%N.
Proof.
  unfold isStop. rewrite !orb_true_iff, !N.eqb_eq. tauto.
Qed.

Lemma isStop_not_space c : isStop c = true → isWhiteSpace c = false.
Proof.
  intros Hc. destruct (isStop_cases c Hc) as [-> | [-> | ->]]; reflexivity.
Qed.

Lemma length_trimStart s : (length (trimStart s) ≤ length s)%nat.
Proof.
  induction s as [|c s IH]; simpl; [lia|].
  destruct (isWhiteSpace c); simpl; lia.
Qed.

Lemma length_trimEnd s : (length (trimEnd s) ≤ length s)%nat.
Proof.
  induction s as [|c s IH]; simpl; [lia|].
  destruct (trimEnd s); [destruct (isWhiteSpace c)|]; simpl in *; lia.
Qed.

Lemma length_trim s : (length (trim s) ≤ length s)%nat.
Proof.
  unfold trim. pose proof (length_trimEnd (trimStart s)).
  pose proof (length_trimStart s). lia.
Qed.

Lemma trimEnd_snoc s c :
  isWhiteSpace c = false → trimEnd (s ++ [c]) = s ++ [c].
Proof.
  intros Hc. induction s as [|d s IH]; simpl.
  - by rewrite Hc.
  - rewrite IH. by destruct s.
Qed.

Lemma trimStart_snoc s c :
  isWhiteSpace c = false → trimStart (s ++ [c]) = trimStart s ++ [c].
Proof.
  intros Hc. induction s as [|d s IH]; simpl.
  - by rewrite Hc.
  - by destruct (isWhiteSpace d).
Qed.

Lemma trim_snoc s c :
  isWhiteSpace c = false → trim (s ++ [c]) = trimStart s ++ [c].
Proof.
  intros Hc. unfold trim. rewrite trimStart_snoc by done.
  by apply trimEnd_snoc.
Qed.

Lemma cleanStart_trimStart s : cleanStart (trimStart s).
Proof.
  induction s as [|c s IH]; simpl; [done|].
  destruct (isWhiteSpace c) eqn:Hc; [done|]. simpl. done.
Qed.

Lemma trimStart_clean s : cleanStart s → trimStart s = s.
Proof.
  destruct s as [|c s]; simpl; [done|]. by intros ->.
Qed.

Lemma cleanStart_trimEnd s : cleanStart s → cleanStart (trimEnd s).
Proof.
  destruct s as [|c s]; simpl; [done|]. intros Hc.
  destruct (trimEnd s); [by rewrite Hc|done].
Qed.

Lemma cleanStart_trim s : cleanStart (trim s).
Proof. apply cleanStart_trimEnd, cleanStart_trimStart. Qed.

Lemma cleanStart_take n s : cleanStart s → cleanStart (take n s).
Proof. destruct s, n; simpl; done. Qed.

Lemma trim_clean_snoc s c :
  cleanStart s → isWhiteSpace c = false → trim (s ++ [c]) = s ++ [c].
Proof.
  intros Hs Hc. rewrite trim_snoc by done. by rewrite trimStart_clean.
Qed.

Lemma endsWithStop_snoc s c : endsWithStop (s ++ [c]) = isStop c.
Proof. unfold endsWithStop. by rewrite last_snoc. Qed.

Lemma endsWithStop_inv s :
  endsWithStop s = true → ∃ s' c, s = s' ++ [c] ∧ isStop c = true.
Proof.
  unfold endsWithStop. destruct (last s) as [c|] eqn:Hl; [|done].
  intros Hc. apply last_Some in Hl as [s' ->]. eauto.
Qed.

(** ** [lastIndexOf] and the last terminator *)

Lemma lastIndexOf_bounds ch s :
  (-1 ≤ lastIndexOf ch s < Z.of_nat (length s))%Z.
Proof.
  induction s as [|c s IH]; simpl; [lia|].
  destruct (Z.leb_spec 0 (lastIndexOf ch s)); [lia|].
  destruct (c =? ch)%N; lia.
Qed.

Lemma lastIndexOf_app ch a b :
  lastIndexOf ch (a ++ b) =
    if (0 <=? lastIndexOf ch b)%Z
    then (Z.of_nat (length a) + lastIndexOf ch b)%Z
    else lastIndexOf ch a.
Proof.
  induction a as [|c a IH]; simpl length; simpl app.
  - pose proof (lastIndexOf_bounds ch b).
    destruct (Z.leb_spec 0 (lastIndexOf ch b)); simpl; lia.
  - simpl lastIndexOf. rewrite IH.
    destruct (Z.leb_spec 0 (lastIndexOf ch b)); [|done].
    destruct (Z.leb_spec 0 (Z.of_nat (length a) + lastIndexOf ch b)); lia.
Qed.

Lemma lastIndexOf_lookup ch s :
  (0 ≤ lastIndexOf ch s)%Z → s !! Z.to_nat (lastIndexOf ch s) = Some ch.
Proof.
  induction s as [|c s IH]; simpl; [lia|].
  destruct (Z.leb_spec 0 (lastIndexOf ch s)).
  - intros _. replace (Z.to_nat (lastIndexOf ch s + 1)) with
      (S (Z.to_nat (lastIndexOf ch s))) by lia.
    simpl. by apply IH.
  - destruct (c =? ch)%N eqn:Hc; [|lia].
    intros _. apply N.eqb_eq in Hc. by subst.
Qed.

Lemma lastIndexOf_absent ch s :
  Forall (λ c, c ≠ ch) s → lastIndexOf ch s = (-1)%Z.
Proof.
  induction 1 as [|c s Hc _ IH]; simpl; [done|].
  rewrite IH. simpl. apply N.eqb_neq in Hc. by rewrite Hc.
Qed.

Lemma lastStop_bounds s : (-1 ≤ lastStop s < Z.of_nat (length s))%Z.
Proof.
  unfold lastStop.
  pose proof (lastIndexOf_bounds 46 s). pose proof (lastIndexOf_bounds 33 s).
  pose proof (lastIndexOf_bounds 63 s). lia.
Qed.

Lemma lastStop_lookup s :
  (0 ≤ lastStop s)%Z →
  ∃ c, s !! Z.to_nat (lastStop s) = Some c ∧ isStop c = true.
Proof.
  unfold lastStop. intros Hk.
  pose proof (lastIndexOf_bounds 46 s). pose proof (lastIndexOf_bounds 33 s).
  pose proof (lastIndexOf_bounds 63 s).
  destruct (Z.max_spec (lastIndexOf 33 s) (lastIndexOf 63 s)) as [[_ E1]|[_ E1]];
    rewrite E1 in *;
    match goal with
    | |- context [Z.max ?a ?b] =>
        destruct (Z.max_spec a b) as [[_ E2]|[_ E2]]; rewrite E2 in *
    end;
    eexists; (split; [apply lastIndexOf_lookup; lia | reflexivity]).
Qed.

Lemma lastStop_app a b :
  lastStop (a ++ b) =
    if (0 <=? lastStop b)%Z
    then (Z.of_nat (length a) + lastStop b)%Z
    else lastStop a.
Proof.
  unfold lastStop. rewrite !lastIndexOf_app.
  pose proof (lastIndexOf_bounds 46 a). pose proof (lastIndexOf_bounds 33 a).
  pose proof (lastIndexOf_bounds 63 a).
  pose proof (lastIndexOf_bounds 46 b). pose proof (lastIndexOf_bounds 33 b).
  pose proof (lastIndexOf_bounds 63 b).
  repeat match goal with
         | |- context [(0 <=? ?x)%Z] => destruct (Z.leb_spec 0 x)
         end; lia.
Qed.

Lemma lastStop_absent s :
  Forall (λ c, isStop c = false) s → lastStop s = (-1)%Z.
Proof.
  intros Hs. unfold lastStop.
  rewrite !lastIndexOf_absent; [done|..];
    (eapply Forall_impl; [exact Hs|]); intros c Hc ->; done.
Qed.

Lemma lastStop_single c : isStop c = true → lastStop [c] = 0%Z.
Proof.
  intros Hc. destruct (isStop_cases c Hc) as [-> | [-> | ->]]; reflexivity.
Qed.

(** The prefix cut at the last terminator ends with that terminator. *)
Lemma take_lastStop s :
  (0 ≤ lastStop s)%Z →
  ∃ pre c, take (Z.to_nat (lastStop s + 1)) s = pre ++ [c]
           ∧ isStop c = true ∧ length pre = Z.to_nat (lastStop s).
Proof.
  intros Hk. destruct (lastStop_lookup s Hk) as (c & Hl & Hc).
  exists (take (Z.to_nat (lastStop s)) s), c. split; [|split; [done|]].
  - replace (Z.to_nat (lastStop s + 1)) with (S (Z.to_nat (lastStop s))) by lia.
    by apply take_S_r.
  - rewrite length_take. apply lookup_lt_Some in Hl. lia.
Qed.

(** ** The finalizer: termination mark and length *)

Section FinalizerBounds.
Context `{!Runtime}.

Lemma terminate_ends candidate : endsWithStop (terminate candidate) = true.
Proof.
  unfold terminate. destruct (endsWithStop candidate) eqn:He; simpl; [done|].
  destruct (Z.ltb_spec 0 (lastStop candidate)) as [Hk|Hk].
  - destruct (take_lastStop candidate) as (pre & c & -> & Hc & _); [lia|].
    rewrite trim_snoc by by apply isStop_not_space.
    by rewrite endsWithStop_snoc.
  - rewrite trim_snoc by done. by rewrite endsWithStop_snoc.
Qed.

Lemma length_clip candidate maxChars :
  (length (clip candidate maxChars) ≤ maxChars)%nat.
Proof.
  unfold clip. destruct (Nat.ltb_spec maxChars (length candidate)); [|done].
  etrans; [apply length_trim|].
  destruct (40 <? _)%Z; rewrite !length_take; lia.
Qed.

Lemma cleanStart_clip candidate maxChars :
  cleanStart candidate → cleanStart (clip candidate maxChars).
Proof.
  intros Hc. unfold clip. destruct (maxChars <? _)%nat; [|done].
  apply cleanStart_trim.
Qed.

Lemma cleanStart_candidateOf normalized maxSentences :
  cleanStart normalized → cleanStart (candidateOf normalized maxSentences).
Proof.
  intros Hn. unfold candidateOf. destruct (0 <? _)%nat; [|done].
  apply cleanStart_trim.
Qed.

(** Either [terminate] does not lengthen the candidate, or it found no
    terminator past offset 0 and appended a full stop. *)
Lemma terminate_cases candidate :
  cleanStart candidate →
  (length (terminate candidate) ≤ length candidate)%nat
  ∨ (terminate candidate = candidate ++ [DOT] ∧ (lastStop candidate ≤ 0)%Z).
Proof.
  intros Hclean. unfold terminate.
  destruct (endsWithStop candidate); simpl; [by left|].
  destruct (Z.ltb_spec 0 (lastStop candidate)) as [Hk|Hk].
  - left. etrans; [apply length_trim|]. rewrite length_take. lia.
  - right. split; [|done]. by apply trim_clean_snoc.
Qed.

(** C2. Whatever value is passed as [text] (a non-string, the empty
    string, white space only, text without any terminator, ...) and whatever
    the two bounds are, the string [finalizeReply] returns is empty or its
    last code unit is one of '.', '!' and '?'. *)
Theorem C2_finalizeReply_empty_or_terminated
    (text : value) (maxChars maxSentences : nat) :
  finalizeReply text maxChars maxSentences = []
  ∨ ∃ c, last (finalizeReply text maxChars maxSentences) = Some c
         ∧ (c = 46%N ∨ c = 33%N ∨ c = 63%N).
Proof.
  unfold finalizeReply. destruct text as [| | | |s| |]; try by left.
  destruct (isEmpty s); [by left|].
  destruct (isEmpty (trim (collapseSpaces s))); [by left|].
  right. set (c := clip _ _). pose proof (terminate_ends c) as He.
  unfold endsWithStop in He. destruct (last (terminate c)) as [x|]; [|done].
  exists x. split; [done|]. by apply isStop_cases.
Qed.


End FinalizerBounds.

(** ** The finalizer: deduplication *)

Section FinalizerDedupe.
Context `{!Runtime}.

(** C7. On "Hi there. Hi there! Bye." the pattern finds three segments; the
    second has the same key as the first ("hi there") and is discarded, so
    exactly the two sentences "Hi there." and "Bye." survive, and the reply
    is "Hi there. Bye.". *)
Theorem C7_near_duplicate_sentence_dropped :
  sentenceParts (lit "Hi there. Hi there! Bye.")
    = [lit "Hi there."; lit " Hi there!"; lit " Bye."]
  ∧ sentenceKey (lit "Hi there.") = lit "hi there"
  ∧ sentenceKey (lit " Hi there!") = lit "hi there"
  ∧ uniqueSentences (lit "Hi there. Hi there! Bye.")
      = [lit "Hi there."; lit "Bye."]
  ∧ finalizeReply (VStr (lit "Hi there. Hi there! Bye.")) 520 4
      = lit "Hi there. Bye.".
Proof. repeat split; vm_compute; reflexivity. Qed.

(** C10. A segment whose key is empty (nothing but punctuation and white
    space once lowered and stripped) is skipped by the loop wherever it
    stands, first occurrence included: the surviving sentences, and with
    them the joined candidate, are those of the segment list without it. *)
Theorem C10_empty_key_segment_dropped
    (seen : gset jsstring) (before after : list jsstring) (sentence : jsstring) :
  sentenceKey sentence = [] →
  dedupe seen (before ++ sentence :: after) = dedupe seen (before ++ after).
Proof.
  intros Hkey. revert seen.
  induction before as [|b before IH]; intros seen; simpl.
  - by rewrite Hkey.
  - destruct (isEmpty (sentenceKey b) || bool_decide (sentenceKey b ∈ seen));
      by rewrite IH.
Qed.

End FinalizerDedupe.

(** ** The finalizer: the cut at the last terminator *)

Section FinalizerCut.
Context `{!Runtime}.

Lemma stopFree_Forall s :
  stopFree s = true → Forall (λ c, isStop c = false) s.
Proof.
  unfold stopFree. rewrite forallb_forall, Forall_forall.
  intros Hs c Hc. apply list_elem_of_In, Hs in Hc.
  by apply negb_true_iff in Hc.
Qed.

(** A candidate longer than [maxChars] whose only terminator among its
    first [maxChars] units stands at an offset [k > 40] is cut right after
    that terminator. *)
Lemma clip_at_only_stop (candidate : jsstring) (maxChars k : nat) (x : N) :
  cleanStart candidate →
  (maxChars < length candidate)%nat →
  (40 < k < maxChars)%nat →
  candidate !! k = Some x →
  isStop x = true →
  stopFree (take k candidate) = true →
  stopFree (drop (S k) (take maxChars candidate)) = true →
  clip candidate maxChars = take (S k) candidate
  ∧ take (S k) candidate = take k candidate ++ [x].
Proof.
  intros Hclean Hlen Hk Hx Hstop Hpre Hpost.
  assert (take (S k) candidate = take k candidate ++ [x]) as Hsnoc
    by by apply take_S_r.
  split; [|done].
  assert (take maxChars candidate
          = take k candidate ++ [x] ++ drop (S k) (take maxChars candidate))
    as Hshort.
  { rewrite <- (take_drop (S k) (take maxChars candidate)) at 1.
    rewrite take_take, Nat.min_l by lia. rewrite Hsnoc.
    by rewrite <- app_assoc. }
  assert (lastStop (take maxChars candidate) = Z.of_nat k) as Hlast.
  { rewrite Hshort, lastStop_app, lastStop_app.
    rewrite (lastStop_absent (drop _ _)) by by apply stopFree_Forall.
    rewrite lastStop_single by done.
    change (0 <=? -1)%Z with false. cbv iota.
    change (0 <=? 0)%Z with true. cbv iota. rewrite length_take. lia. }
  unfold clip. destruct (Nat.ltb_spec maxChars (length candidate)); [|lia].
  cbn zeta. rewrite Hlast.
  destruct (Z.ltb_spec 40 (Z.of_nat k)); [|lia].
  replace (Z.to_nat (Z.of_nat k + 1)) with (S k) by lia.
  rewrite take_take, Nat.min_l by lia. rewrite Hsnoc.
  apply trim_clean_snoc; [by apply cleanStart_take|by apply isStop_not_space].
Qed.

(** C8. With [maxChars = 520]: when the candidate is longer than 520 units
    and the only terminator among its first 520 units stands at index 45,
    the reply is the candidate's first 46 units, index 45 and its
    terminator included (45 exceeds the threshold 40). *)
Theorem C8_cut_at_terminator_45
    (text candidate : jsstring) (maxSentences : nat) (x : N) :
  candidate = candidateOf (trim (collapseSpaces text)) maxSentences →
  (520 < length candidate)%nat →
  candidate !! 45%nat = Some x →
  isStop x = true →
  stopFree (take 45 candidate) = true →
  stopFree (drop 46 (take 520 candidate)) = true →
  finalizeReply (VStr text) 520 maxSentences = take 46 candidate
  ∧ length (finalizeReply (VStr text) 520 maxSentences) = 46%nat
  ∧ last (finalizeReply (VStr text) 520 maxSentences) = Some x.
Proof.
  intros Hcand Hlen Hx Hstop Hpre Hpost.
  assert (cleanStart candidate) as Hclean
    by (subst candidate; apply cleanStart_candidateOf, cleanStart_trim).
  destruct (clip_at_only_stop candidate 520 45 x) as [Hclip Hsnoc];
    try done; [lia|].
  assert (finalizeReply (VStr text) 520 maxSentences = take 46 candidate)
    as Hreply.
  { unfold finalizeReply.
    destruct (isEmpty text) eqn:Ht.
    { destruct text; [|done]. subst candidate. vm_compute in Hlen. lia. }
    destruct (isEmpty (trim (collapseSpaces text))) eqn:Hn.
    { subst candidate. destruct (trim (collapseSpaces text)); [|done].
      vm_compute in Hlen. lia. }
    rewrite <- Hcand, Hclip. unfold terminate.
    rewrite Hsnoc, endsWithStop_snoc, Hstop. done. }
  rewrite Hreply. split; [done|]. split.
  - rewrite length_take. lia.
  - rewrite Hsnoc. apply last_snoc.
Qed.

End FinalizerCut.

(** ** Normalisation is idempotent *)

Lemma tidyFrom_weaken b s : tidyFrom b s = true → tidyFrom false s = true.
Proof.
  destruct s as [|c s]; simpl; [done|].
  destruct (isWhiteSpace c); [|done].
  rewrite !andb_true_iff. intros [[-> _] ->]. done.
Qed.

Lemma tidyFrom_collapseFrom b s : tidyFrom b (collapseFrom b s) = true.
Proof.
  revert b. induction s as [|c s IH]; intros b; simpl; [done|].
  destruct (isWhiteSpace c) eqn:Hc.
  - destruct b; [apply IH|]. simpl. apply IH.
  - simpl. rewrite Hc. apply IH.
Qed.

Lemma collapseFrom_tidy b s : tidyFrom b s = true → collapseFrom b s = s.
Proof.
  revert b. induction s as [|c s IH]; intros b; simpl; [done|].
  destruct (isWhiteSpace c).
  - rewrite !andb_true_iff, N.eqb_eq, negb_true_iff.
    intros [[-> ->] Hs]. by rewrite IH.
  - intros Hs. by rewrite IH.
Qed.

Lemma tidy_trimStart s :
  tidyFrom false s = true → tidyFrom false (trimStart s) = true.
Proof.
  destruct s as [|c s]; simpl; [done|].
  destruct (isWhiteSpace c) eqn:Hc; simpl; [|by rewrite Hc].
  rewrite !andb_true_iff. intros [_ Hs].
  destruct s as [|d s]; simpl in *; [done|].
  destruct (isWhiteSpace d) eqn:Hd; simpl; [|by rewrite Hd].
  by rewrite andb_false_r in Hs.
Qed.

Lemma tidy_trimEnd b s :
  tidyFrom b s = true → tidyFrom b (trimEnd s) = true.
Proof.
  revert b. induction s as [|c s IH]; intros b; simpl; [done|].
  destruct (isWhiteSpace c) eqn:Hc.
  - rewrite !andb_true_iff. intros [[Hsp Hb] Hs]. apply IH in Hs.
    destruct (trimEnd s) as [|d t]; [done|].
    cbn [tidyFrom]. rewrite Hc, Hsp, Hb. done.
  - intros Hs. apply IH in Hs.
    destruct (trimEnd s) as [|d t]; cbn [tidyFrom]; by rewrite Hc.
Qed.

Lemma trimEnd_idemp s : trimEnd (trimEnd s) = trimEnd s.
Proof.
  induction s as [|c s IH]; simpl; [done|].
  destruct (trimEnd s) as [|d t] eqn:Ht.
  - destruct (isWhiteSpace c) eqn:Hc; simpl; [done|]. by rewrite Hc.
  - change (trimEnd (c :: d :: t)) with
      (match trimEnd (d :: t) with
       | [] => if isWhiteSpace c then [] else [c]
       | t' => c :: t'
       end).
    by rewrite IH.
Qed.

Lemma trim_idemp s : trim (trim s) = trim s.
Proof.
  unfold trim at 1. rewrite (trimStart_clean (trim s)) by apply cleanStart_trim.
  unfold trim. apply trimEnd_idemp.
Qed.

(** The normalised text [text.replace(/\s+/g, " ").trim()] normalises to
    itself. *)
Lemma normalize_idemp s :
  trim (collapseSpaces (trim (collapseSpaces s))) = trim (collapseSpaces s).
Proof.
  assert (tidyFrom false (trim (collapseSpaces s)) = true) as Htidy.
  { unfold trim. apply tidy_trimEnd, tidy_trimStart, tidyFrom_collapseFrom. }
  unfold collapseSpaces at 1. rewrite collapseFrom_tidy by done.
  apply trim_idemp.
Qed.

(** ** The finalizer on a single sentence *)

Lemma length_collapseFrom b s : (length (collapseFrom b s) ≤ length s)%nat.
Proof.
  revert b. induction s as [|c s IH]; intros b; simpl; [lia|].
  pose proof (IH true). pose proof (IH false).
  destruct (isWhiteSpace c); [destruct b|]; simpl; lia.
Qed.

Lemma collapseFrom_solid b s :
  Forall (λ c, isWhiteSpace c = false) s → collapseFrom b s = s.
Proof.
  intros Hs. revert b. induction Hs as [|c s Hc _ IH]; intros b; simpl; [done|].
  by rewrite Hc, IH.
Qed.

Lemma collapseFrom_app_solid b s t :
  Forall (λ c, isWhiteSpace c = false) t →
  collapseFrom b (s ++ t) = collapseFrom b s ++ t.
Proof.
  intros Ht. revert b. induction s as [|c s IH]; intros b; simpl.
  - by apply collapseFrom_solid.
  - destruct (isWhiteSpace c); [destruct b|]; by rewrite IH.
Qed.

Lemma trimStart_app_clean s t :
  cleanStart t → trimStart (s ++ t) = trimStart s ++ t.
Proof.
  intros Ht. induction s as [|c s IH]; simpl.
  - by apply trimStart_clean.
  - by destruct (isWhiteSpace c).
Qed.

Lemma stopFree_collapseFrom b s :
  stopFree s = true → stopFree (collapseFrom b s) = true.
Proof.
  unfold stopFree. revert b. induction s as [|c s IH]; intros b; simpl; [done|].
  rewrite andb_true_iff. intros [Hc Hs].
  destruct (isWhiteSpace c); [destruct b|]; simpl; rewrite ?Hc; by apply IH.
Qed.

Lemma stopFree_trimStart s :
  stopFree s = true → stopFree (trimStart s) = true.
Proof.
  unfold stopFree. induction s as [|c s IH]; simpl; [done|].
  rewrite andb_true_iff. intros [Hc Hs].
  destruct (isWhiteSpace c); [by apply IH|]. simpl. by rewrite Hc, Hs.
Qed.

Lemma stops_solid t :
  forallb isStop t = true → Forall (λ c, isWhiteSpace c = false) t.
Proof.
  rewrite forallb_forall, Forall_forall. intros Ht c Hc.
  apply isStop_not_space, Ht. by apply list_elem_of_In.
Qed.

Lemma stops_snoc t :
  t ≠ [] → forallb isStop t = true → ∃ t' c, t = t' ++ [c] ∧ isStop c = true.
Proof.
  intros Hne Ht. destruct (last t) as [c|] eqn:Hl.
  - apply last_Some in Hl as [t' ->]. exists t', c. split; [done|].
    rewrite forallb_app in Ht. simpl in Ht.
    by destruct (isStop c); [|rewrite !andb_false_r in Ht].
  - apply last_None in Hl. done.
Qed.

(** The normalised form of a run followed by terminators: the run
    collapsed and trimmed at the front, then the same terminators. *)
Lemma normalize_sentence run stops :
  stops ≠ [] → forallb isStop stops = true →
  trim (collapseSpaces (run ++ stops))
    = trimStart (collapseSpaces run) ++ stops.
Proof.
  intros Hne Hstops. pose proof (stops_solid stops Hstops) as Hsolid.
  unfold collapseSpaces. rewrite collapseFrom_app_solid by done.
  unfold trim. rewrite trimStart_app_clean.
  - destruct (stops_snoc stops Hne Hstops) as (t' & c & -> & Hc).
    rewrite app_assoc. by apply trimEnd_snoc, isStop_not_space.
  - destruct stops as [|c t]; [done|]. by inversion Hsolid.
Qed.

Lemma matchSentences_run r run rest :
  stopFree run = true →
  matchSentences r [] (run ++ rest) = matchSentences (r ++ run) [] rest.
Proof.
  unfold stopFree. revert r. induction run as [|c run IH]; intros r; simpl.
  - by rewrite app_nil_r.
  - rewrite andb_true_iff, negb_true_iff. intros [-> Hrun].
    rewrite IH by done. by rewrite <- app_assoc.
Qed.

Lemma matchSentences_stops r st t :
  r ≠ [] → forallb isStop t = true →
  matchSentences r st t = if isEmpty (st ++ t) then [] else [r ++ st ++ t].
Proof.
  intros Hr. revert st. induction t as [|c t IH]; intros st; simpl.
  - rewrite app_nil_r. done.
  - rewrite andb_true_iff. intros [-> Ht].
    destruct r as [|r0 r]; [done|]. cbn [isEmpty].
    rewrite IH by done. rewrite <- !app_assoc. simpl.
    by destruct st.
Qed.

Lemma matchSentences_only_stops t :
  forallb isStop t = true → matchSentences [] [] t = [].
Proof.
  induction t as [|c t IH]; simpl; [done|].
  rewrite andb_true_iff. intros [-> Ht]. by apply IH.
Qed.

Lemma sentenceParts_sentence run stops :
  stopFree run = true → stops ≠ [] → forallb isStop stops = true →
  sentenceParts (run ++ stops) = if isEmpty run then [] else [run ++ stops].
Proof.
  intros Hrun Hne Hstops. unfold sentenceParts.
  rewrite matchSentences_run by done. simpl.
  destruct run as [|c run]; simpl.
  - by apply matchSentences_only_stops.
  - rewrite matchSentences_stops by done. simpl. by destruct stops.
Qed.

(** The scanner against the pattern [[^.!?]+[.!?]+] matched globally:
    terminators in front of a match are skipped, a run followed by
    terminators is one match, taken with all its terminators, and a run
    without terminator matches nothing. *)
Lemma sentenceParts_skip_stops stops s :
  forallb isStop stops = true → sentenceParts (stops ++ s) = sentenceParts s.
Proof.
  unfold sentenceParts. induction stops as [|c t IH]; simpl; [done|].
  rewrite andb_true_iff. intros [-> Ht]. by apply IH.
Qed.

Lemma matchSentences_stops_then r st t c rest :
  r ≠ [] → forallb isStop t = true → isStop c = false →
  matchSentences r st (t ++ c :: rest)
    = if isEmpty (st ++ t) then matchSentences (r ++ [c]) [] rest
      else (r ++ st ++ t) :: matchSentences [c] [] rest.
Proof.
  intros Hr Ht Hc. revert st Ht. induction t as [|d t IH]; intros st; simpl.
  - intros _. rewrite Hc, app_nil_r. done.
  - rewrite andb_true_iff. intros [-> Ht].
    destruct r as [|r0 r]; [done|]. cbn [isEmpty].
    rewrite IH by done. rewrite <- !app_assoc. simpl. by destruct st.
Qed.

Lemma sentenceParts_next run stops c rest :
  run ≠ [] → stopFree run = true →
  stops ≠ [] → forallb isStop stops = true →
  isStop c = false →
  sentenceParts (run ++ stops ++ c :: rest)
    = (run ++ stops) :: sentenceParts (c :: rest).
Proof.
  intros Hne Hrun Hstops Hall Hc. unfold sentenceParts.
  rewrite matchSentences_run by done.
  rewrite matchSentences_stops_then by done.
  simpl. rewrite Hc. by destruct stops.
Qed.

Lemma sentenceParts_unterminated run :
  stopFree run = true → sentenceParts run = [].
Proof.
  intros Hrun. unfold sentenceParts.
  rewrite <- (app_nil_r run), matchSentences_run by done. done.
Qed.

Section FinalizerIdempotence.
Context `{!Runtime}.

(** The part of [finalizeReply] that follows normalisation. *)
Lemma finalizeReply_normalized s maxChars maxSentences :
  trim (collapseSpaces s) ≠ [] →
  finalizeReply (VStr s) maxChars maxSentences
    = terminate (clip (candidateOf (trim (collapseSpaces s)) maxSentences)
                   maxChars).
Proof.
  intros Hn. unfold finalizeReply.
  destruct s as [|c s]; [done|]. cbn [isEmpty].
  by destruct (trim (collapseSpaces (c :: s))).
Qed.

(** The candidate of a normalised single sentence is that sentence, or
    nothing when [maxSentences] is 0. *)
Lemma candidateOf_sentence run stops maxSentences :
  stopFree run = true → stops ≠ [] → forallb isStop stops = true →
  trim (run ++ stops) = run ++ stops →
  candidateOf (run ++ stops) maxSentences = run ++ stops
  ∨ candidateOf (run ++ stops) maxSentences = [].
Proof.
  intros Hrun Hne Hstops Htrim. unfold candidateOf, uniqueSentences.
  rewrite sentenceParts_sentence by done.
  destruct (isEmpty run); [by left|]. cbn [dedupe].
  destruct (isEmpty (sentenceKey (run ++ stops))); cbn [orb]; [by left|].
  rewrite bool_decide_eq_false_2 by apply not_elem_of_empty.
  cbn [length Nat.ltb Nat.leb]. rewrite Htrim.
  destruct maxSentences as [|k]; [by right|]. left.
  simpl. by rewrite take_nil.
Qed.

(** C6. Let [s] be one sentence: a non-empty run without terminators
    followed by one or more terminators, at most [maxChars] units long.
    Then finalizing the finalized [s] changes nothing. *)
Theorem C6_finalizeReply_idempotent_on_sentence
    (run stops : jsstring) (maxChars maxSentences : nat) :
  run ≠ [] → stopFree run = true →
  stops ≠ [] → forallb isStop stops = true →
  (length (run ++ stops) ≤ maxChars)%nat →
  finalizeReply
    (VStr (finalizeReply (VStr (run ++ stops)) maxChars maxSentences))
    maxChars maxSentences
  = finalizeReply (VStr (run ++ stops)) maxChars maxSentences.
Proof.
  intros Hrun0 Hrun Hne Hstops Hlen.
  set (s := run ++ stops) in *.
  set (run' := trimStart (collapseSpaces run)).
  assert (trim (collapseSpaces s) = run' ++ stops) as Hnorm
    by by apply normalize_sentence.
  assert (run' ++ stops ≠ []) as Hn by by destruct run', stops.
  assert (stopFree run' = true) as Hrun'
    by by apply stopFree_trimStart, stopFree_collapseFrom.
  assert (trim (run' ++ stops) = run' ++ stops) as Htrim
    by (rewrite <- Hnorm; apply trim_idemp).
  assert (length (run' ++ stops) ≤ maxChars)%nat as Hlen'.
  { rewrite <- Hnorm. etrans; [apply length_trim|].
    etrans; [apply length_collapseFrom|]. done. }
  assert (0 < length s)%nat as Hpos by (subst s; destruct run; simpl; [done|lia]).
  rewrite (finalizeReply_normalized s) by by rewrite Hnorm.
  rewrite Hnorm.
  destruct (candidateOf_sentence run' stops maxSentences) as [Hc|Hc];
    try done; rewrite Hc.
  - (* the candidate is the normalised sentence *)
    assert (clip (run' ++ stops) maxChars = run' ++ stops) as Hclip.
    { unfold clip. by destruct (Nat.ltb_spec maxChars (length (run' ++ stops)));
        [lia|]. }
    assert (terminate (run' ++ stops) = run' ++ stops) as Hterm.
    { unfold terminate.
      destruct (stops_snoc stops Hne Hstops) as (t' & c & -> & Hstop).
      by rewrite app_assoc, endsWithStop_snoc, Hstop. }
    rewrite Hclip, Hterm.
    rewrite finalizeReply_normalized; rewrite <- Hnorm, normalize_idemp, Hnorm;
      [|done].
    by rewrite Hc, Hclip, Hterm.
  - (* [maxSentences] is 0: the reply is a lone full stop *)
    destruct maxChars as [|m]; [lia|]. reflexivity.
Qed.

End FinalizerIdempotence.

(** ** The admin check *)

Section Admin.
Context `{!Runtime}.

Lemma isEmpty_true s : isEmpty s = true ↔ s = [].
Proof. by destruct s. Qed.

(** The token compared with the secret is the header value without its
    surrounding white space, the empty string when the header is
    missing. *)
Lemma admin_token header :
  toString (orElse (from_option VStr VUndefined header) (VStr []))
    = Some (default [] header).
Proof. by destruct header as [[|c s]|]. Qed.

(** C4, as the code has it. A request is authorized exactly when the
    configured secret is not empty and the x-admin-token header value,
    trimmed of surrounding white space, equals the secret.  In particular
    no request is authorized when the secret is empty, also not one with an
    empty or missing header. *)
Theorem C4_authorized_iff_trimmed_token_matches
    (ADMIN_TOKEN : jsstring) (header : option jsstring) :
  (isAdminAuthorized ADMIN_TOKEN header = true
   ↔ ADMIN_TOKEN ≠ [] ∧ trim (default [] header) = ADMIN_TOKEN)
  ∧ isAdminAuthorized [] header = false.
Proof.
  unfold isAdminAuthorized. rewrite admin_token. cbn zeta. split; [|done].
  rewrite andb_true_iff, negb_true_iff, bool_decide_eq_true.
  destruct ADMIN_TOKEN; simpl; split; intros [? ?]; done.
Qed.

End Admin.

(** C4 does not hold with "the header value exactly matches": a header
    value that is the secret followed by a no-break space (U+00A0) is
    authorized, and a secret that ends with a space is refused to the
    request that presents exactly that secret. *)
Lemma C4_exact_match_counterexample :
  (isAdminAuthorized (H := asciiRuntime)
     (lit "s3cret") (Some (lit "s3cret" ++ [160%N])) = true
   ∧ lit "s3cret" ++ [160%N] ≠ lit "s3cret")
  ∧ isAdminAuthorized (H := asciiRuntime)
      (lit "s3cret ") (Some (lit "s3cret ")) = false.
Proof. split; [split|]; [reflexivity|discriminate|reflexivity]. Qed.

(** ** The chat relay's message assembly *)

Section Chat.
Context (SYSTEM_PROMPT KNOWLEDGE_BLOCK : jsstring).

(** A body whose [message] (or [prompt], or [text]) is a string with
    something left after trimming reaches the upstream call, with the
    messages assembled from the trimmed message and the accepted
    history. *)
Lemma chatHandler_upstream (body : value) (s : jsstring) :
  truthy body = true →
  orElse (orElse (getProp body (lit "message")) (getProp body (lit "prompt")))
    (getProp body (lit "text")) = VStr s →
  trim s ≠ [] →
  chatHandler SYSTEM_PROMPT KNOWLEDGE_BLOCK body
    = Upstream (assembleMessages SYSTEM_PROMPT KNOWLEDGE_BLOCK (trim s)
                  (acceptedHistory (getProp body (lit "history")))).
Proof.
  intros Hbody Hraw Hmessage. unfold chatHandler. rewrite Hbody, Hraw.
  by destruct (trim s).
Qed.

(** The accepted history holds at most 12 entries. *)
Lemma length_capHistory h : (length (capHistory h) ≤ 12)%nat.
Proof.
  unfold capHistory. destruct (Nat.ltb_spec 12 (length h)); [|done].
  rewrite length_drop. lia.
Qed.

Lemma hasLatestUser_Exists message h :
  hasLatestUser message h = true ↔ Exists (repeatsMessage message) h.
Proof.
  unfold hasLatestUser, repeatsMessage. rewrite existsb_exists, Exists_exists.
  split; intros (item & Hin & Hitem); exists item;
    (split; [by apply list_elem_of_In|]);
    rewrite andb_true_iff, bool_decide_eq_true in *;
    destruct Hitem as [Hr Hc]; (split; [|done]);
    by destruct (msgRole item).
Qed.

(** C1, as the code has it. With a non-empty accepted history the messages
    are the two system prompts, the history, and then the new user message,
    unless some entry of the history, the last or an earlier one, is a user
    turn whose trimmed content equals the trimmed new message: then the new
    message is left out. *)
Theorem C1_message_omitted_iff_some_entry_matches
    (message : jsstring) (h : list chatMessage) :
  h ≠ [] →
  (Exists (repeatsMessage message) h →
     assembleMessages SYSTEM_PROMPT KNOWLEDGE_BLOCK message (Some h)
       = systemMessages SYSTEM_PROMPT KNOWLEDGE_BLOCK ++ h)
  ∧ (¬ Exists (repeatsMessage message) h →
     assembleMessages SYSTEM_PROMPT KNOWLEDGE_BLOCK message (Some h)
       = systemMessages SYSTEM_PROMPT KNOWLEDGE_BLOCK ++ h
           ++ [ {| msgRole := User; content := message |} ]).
Proof.
  intros Hne. unfold assembleMessages.
  destruct h as [|item h]; [done|]. cbn [length Nat.ltb Nat.leb].
  split; intros Hex.
  - apply hasLatestUser_Exists in Hex. by rewrite Hex.
  - destruct (hasLatestUser message (item :: h)) eqn:Hhas.
    + by apply hasLatestUser_Exists in Hhas.
    + cbn [negb]. by rewrite <- app_assoc.
Qed.

End Chat.

(** C1 does not hold with "the last history entry": the new message "hi"
    is an earlier user turn of the history, the last entry is the
    assistant's, and still no user message is appended. *)
Lemma C1_earlier_turn_counterexample :
  acceptedHistory repeatedTurnHistory = Some repeatedTurnAccepted
  ∧ last repeatedTurnAccepted
    = Some {| msgRole := Assistant; content := lit "hello" |}
  ∧ chatHandler (lit "SYSTEM_PROMPT") (lit "KNOWLEDGE_BLOCK") repeatedTurnBody
    = Upstream (systemMessages (lit "SYSTEM_PROMPT") (lit "KNOWLEDGE_BLOCK")
                  ++ repeatedTurnAccepted)
  ∧ assembleMessages (lit "SYSTEM_PROMPT") (lit "KNOWLEDGE_BLOCK") (lit "hi")
      (Some repeatedTurnAccepted)
    ≠ systemMessages (lit "SYSTEM_PROMPT") (lit "KNOWLEDGE_BLOCK")
        ++ repeatedTurnAccepted
        ++ [ {| msgRole := User; content := lit "hi" |} ].
Proof. repeat split; try reflexivity. vm_compute. discriminate. Qed.

Lemma C1_witness :
  assembleMessages (lit "SYSTEM_PROMPT") (lit "KNOWLEDGE_BLOCK") (lit "hi")
    (Some [ {| msgRole := Assistant; content := lit "hello" |};
            {| msgRole := User; content := lit " hi " |} ])
  = systemMessages (lit "SYSTEM_PROMPT") (lit "KNOWLEDGE_BLOCK")
      ++ [ {| msgRole := Assistant; content := lit "hello" |};
           {| msgRole := User; content := lit " hi " |} ].
Proof.
  apply (C1_message_omitted_iff_some_entry_matches
           (lit "SYSTEM_PROMPT") (lit "KNOWLEDGE_BLOCK") (lit "hi")).
  - discriminate.
  - apply Exists_cons_tl, Exists_cons_hd. split; reflexivity.
Defined.

(** ** Whole-string tests decide the language of their pattern *)

Lemma nullable_matches r : nullable r = true ↔ matches r [].
Proof.
  induction r as [| |p|r1 IH1 r2 IH2|r1 IH1 r2 IH2|r IH]; simpl.
  - split; [done|]. inversion 1.
  - split; [constructor|done].
  - split; [done|]. inversion 1.
  - rewrite andb_true_iff, IH1, IH2. split.
    + intros [H1 H2]. by apply (matches_seq _ _ [] []).
    + inversion 1 as [| |? ? s1 s2 H1 H2| | | |]; subst.
      match goal with
      | Heq : s1 ++ s2 = [] |- _ => apply app_eq_nil in Heq as [-> ->]
      end.
      done.
  - rewrite orb_true_iff, IH1, IH2. split.
    + intros [?|?]; [by apply matches_or_l|by apply matches_or_r].
    + inversion 1; subst; [by left|by right].
  - split; [constructor|done].
Qed.

Lemma matches_star_head r c s :
  matches (Star r) (c :: s) →
  ∃ s1 s2, s = s1 ++ s2 ∧ matches r (c :: s1) ∧ matches (Star r) s2.
Proof.
  intros Hm. remember (Star r) as r' eqn:Hr. remember (c :: s) as s' eqn:Hs.
  induction Hm as [| | | | | |r0 s1 s2 H1 _ H2 IH2]; try done.
  injection Hr as ->. destruct s1 as [|d s1]; simpl in Hs.
  - by apply IH2.
  - injection Hs as -> <-. by exists s1, s2.
Qed.

Lemma deriv_matches c r s : matches (deriv c r) s ↔ matches r (c :: s).
Proof.
  revert s. induction r as [| |p|r1 IH1 r2 IH2|r1 IH1 r2 IH2|r IH];
    intros s; simpl.
  - split; inversion 1.
  - split; inversion 1.
  - destruct (p c) eqn:Hp; split; inversion 1; subst.
    + by constructor.
    + constructor.
    + congruence.
  - split.
    + intros Hm.
      assert (matches (Seq (deriv c r1) r2) s → matches (Seq r1 r2) (c :: s))
        as Hseq.
      { inversion 1 as [| |? ? s1 s2 H1 H2| | | |]; subst.
        apply IH1 in H1. by apply (matches_seq _ _ (c :: s1) s2). }
      destruct (nullable r1) eqn:Hn; [|by apply Hseq].
      inversion Hm; subst; [by apply Hseq|].
      apply (matches_seq _ _ [] (c :: s)); [by apply nullable_matches|].
      by apply IH2.
    + inversion 1 as [| |? ? s1 s2 H1 H2| | | |]; subst.
      match goal with Heq : s1 ++ s2 = c :: s |- _ => rename Heq into Hcat end.
      destruct s1 as [|d s1]; simpl in Hcat.
      * subst s2. apply nullable_matches in H1. rewrite H1.
        apply matches_or_r. by apply IH2.
      * injection Hcat as -> <-.
        assert (matches (Seq (deriv c r1) r2) (s1 ++ s2)) as Hseq
          by (constructor; [by apply IH1|done]).
        destruct (nullable r1); [by apply matches_or_l|done].
  - split.
    + inversion 1; subst;
        [apply matches_or_l; by apply IH1|apply matches_or_r; by apply IH2].
    + inversion 1; subst;
        [apply matches_or_l; by apply IH1|apply matches_or_r; by apply IH2].
  - split.
    + inversion 1 as [| |? ? s1 s2 H1 H2| | | |]; subst.
      apply IH in H1. by apply (matches_star_cons _ (c :: s1) s2).
    + intros Hm. apply matches_star_head in Hm as (s1 & s2 & -> & H1 & H2).
      constructor; [by apply IH|done].
Qed.

Lemma fullMatch_matches r s : fullMatch r s = true ↔ matches r s.
Proof.
  revert r. induction s as [|c s IH]; intros r; simpl.
  - apply nullable_matches.
  - rewrite IH. apply deriv_matches.
Qed.

Lemma matches_plus_class p s :
  matches (Plus (Class p)) s ↔ s ≠ [] ∧ Forall (λ c, p c = true) s.
Proof.
  assert (∀ t, matches (Star (Class p)) t ↔ Forall (λ c, p c = true) t)
    as Hstar.
  { intros t. split.
    - intros Hm. remember (Star (Class p)) as r eqn:Hr.
      induction Hm as [| | | | | |r0 s1 s2 H1 _ H2 IH2]; try done.
      injection Hr as ->. inversion H1; subst.
      constructor; [done|by apply IH2].
    - induction 1 as [|c t Hc _ IH]; [constructor|].
      apply (matches_star_cons _ [c] t); [by constructor|done]. }
  unfold Plus. split.
  - inversion 1 as [| |? ? s1 s2 H1 H2| | | |]; subst.
    inversion H1; subst. split; [done|].
    constructor; [done|by apply Hstar].
  - intros [Hne Hall]. destruct Hall as [|c t Hc Ht]; [done|].
    apply (matches_seq _ _ [c] t); [by constructor|by apply Hstar].
Qed.

(** The email test: a non-empty local part, one [@], and a host holding a
    dot with something before and after it, all without white space and
    without any other [@]. *)
Lemma emailPattern_spec email :
  fullMatch emailPattern email = true
  ↔ ∃ localPart host tld,
      email = localPart ++ [64%N] ++ host ++ [46%N] ++ tld
      ∧ localPart ≠ [] ∧ host ≠ [] ∧ tld ≠ []
      ∧ Forall (λ c, notSpaceOrAt c = true) (localPart ++ host ++ tld).
Proof.
  rewrite fullMatch_matches. unfold emailPattern. split.
  - inversion 1 as [| |? ? l s2 Hl H2| | | |]; subst.
    inversion H2 as [| |? ? a s3 Ha H3| | | |]; subst.
    inversion H3 as [| |? ? h s4 Hh H4| | | |]; subst.
    inversion H4 as [| |? ? d t Hd Ht| | | |]; subst.
    inversion Ha as [|? ? Hat| | | | |]; subst.
    inversion Hd as [|? ? Hdot| | | | |]; subst.
    apply N.eqb_eq in Hat as <-. apply N.eqb_eq in Hdot as <-.
    apply matches_plus_class in Hl as [? ?], Hh as [? ?], Ht as [? ?].
    exists l, h, t. rewrite !Forall_app. done.
  - intros (l & h & t & -> & Hl & Hh & Ht & Hall).
    rewrite !Forall_app in Hall. destruct Hall as (? & ? & ?).
    repeat first
      [ apply matches_seq
      | by apply matches_plus_class
      | by apply matches_class ].
Qed.

(** ** POST /api/match-lead *)

Section MatchLead.
Context `{!Runtime}.

Lemma answerOk_spec answers key :
  answerOk answers key = Some true
  ↔ ∃ z, (1 ≤ z ≤ 5)%Z ∧ toNumber (getProp answers key) = Some (Integral z).
Proof.
  unfold answerOk. destruct (toNumber (getProp answers key)) as [[| |z|m e]|];
    cbn; try (split; [done|by intros (? & _ & ?)]).
  split.
  - intros [= Hz]. apply andb_true_iff in Hz as [Hge Hle].
    apply Z.leb_le in Hge, Hle. exists z. split; [lia|done].
  - intros (z' & Hz & [= ->]). f_equal. apply andb_true_iff.
    split; apply Z.leb_le; lia.
Qed.

Lemma answerOk_defined answers key :
  is_Some (answerOk answers key) ↔ is_Some (toNumber (getProp answers key)).
Proof.
  unfold answerOk. destruct (toNumber (getProp answers key)); cbn.
  - split; intros _; by eexists.
  - split; by intros [? ?].
Qed.

Lemma every_true callback keys :
  every callback keys = Some true
  ↔ ∀ key, key ∈ keys → callback key = Some true.
Proof.
  induction keys as [|k keys IH]; simpl.
  - split; [|done]. intros _ key Hkey. by apply elem_of_nil in Hkey.
  - destruct (callback k) as [[|]|] eqn:Hk.
    + rewrite IH. split.
      * intros Hall key [->|Hkey]%elem_of_cons; [done|by apply Hall].
      * intros Hall key Hkey. apply Hall. by right.
    + split; [done|]. intros Hall. specialize (Hall k ltac:(by left)).
      congruence.
    + split; [done|]. intros Hall. specialize (Hall k ltac:(by left)).
      congruence.
Qed.

Lemma every_defined callback keys :
  (∀ key, key ∈ keys → is_Some (callback key)) →
  is_Some (every callback keys).
Proof.
  induction keys as [|k keys IH]; simpl; intros Hall; [by eexists|].
  destruct (Hall k ltac:(by left)) as [[|] ->]; [|by eexists].
  apply IH. intros key Hkey. apply Hall. by right.
Qed.

Lemma validAnswers_spec body :
  validAnswers body = Some true
  ↔ ∀ key, key ∈ answerKeys →
      ∃ z, (1 ≤ z ≤ 5)%Z
           ∧ toNumber (getProp (answersOf body) key) = Some (Integral z).
Proof.
  unfold validAnswers. rewrite every_true. split.
  - intros Hall key Hkey. by apply answerOk_spec, Hall.
  - intros Hall key Hkey. by apply answerOk_spec, Hall.
Qed.

Lemma readFields_Some body email score percentage valid :
  readFields body = Some (email, score, percentage, valid)
  ↔ emailOf body = Some email ∧ scoreOf body = Some score
    ∧ percentageOf body = Some percentage ∧ validAnswers body = Some valid.
Proof.
  unfold readFields.
  destruct (emailOf body), (scoreOf body), (percentageOf body),
    (validAnswers body); cbn; naive_solver.
Qed.

Lemma readFields_None body :
  readFields body = None
  ↔ emailOf body = None ∨ scoreOf body = None ∨ percentageOf body = None
    ∨ validAnswers body = None.
Proof.
  unfold readFields.
  destruct (emailOf body), (scoreOf body), (percentageOf body),
    (validAnswers body); cbn; naive_solver.
Qed.

(** C9, as the code has it. When the fields can be read (no conversion
    throws), the request is answered 400, and nothing is written, whenever
    the email as the handler reads it (the string of [email], trimmed and
    lower-cased) does not match the pattern, or [consent] is falsy, or
    [Number(answer)] is not an integer from 1 to 5 for one of q1..q4.  A
    lead is written only when the three checks pass.  And when reading a
    field throws, which [String] and [Number] do on an object that has a
    property [toString] of its own, the request is answered 500, before
    any check. *)
Theorem C9_rejected_unless_three_checks_pass (body : value) (e : env) :
  (∀ email,
     emailOf body = Some email →
     is_Some (scoreOf body) → is_Some (percentageOf body) →
     (∀ key, key ∈ answerKeys →
             is_Some (toNumber (getProp (answersOf body) key))) →
     fullMatch emailPattern email = false
     ∨ truthy (getProp body (lit "consent")) = false
     ∨ (∃ key, key ∈ answerKeys
               ∧ ∀ z, (1 ≤ z ≤ 5)%Z
                      → toNumber (getProp (answersOf body) key)
                        ≠ Some (Integral z)) →
     status (matchLeadHandler body e) = 400%Z
     ∧ written (matchLeadHandler body e) = None)
  ∧ (∀ leads, written (matchLeadHandler body e) = Some leads →
       ∃ email,
         emailOf body = Some email
         ∧ fullMatch emailPattern email = true
         ∧ truthy (getProp body (lit "consent")) = true
         ∧ ∀ key, key ∈ answerKeys →
             ∃ z, (1 ≤ z ≤ 5)%Z
                  ∧ toNumber (getProp (answersOf body) key)
                    = Some (Integral z))
  ∧ (emailOf body = None ∨ scoreOf body = None ∨ percentageOf body = None
     ∨ validAnswers body = None →
     status (matchLeadHandler body e) = 500%Z
     ∧ written (matchLeadHandler body e) = None).
Proof.
  split; [|split].
  - intros email Hemail [score Hscore] [percentage Hpercentage] Hconv Hbad.
    assert (is_Some (validAnswers body)) as [valid Hvalid].
    { apply every_defined. intros key Hkey. by apply answerOk_defined, Hconv. }
    unfold matchLeadHandler.
    rewrite (proj2 (readFields_Some body email score percentage valid))
      by done.
    fold (consentOf body) in Hbad. unfold emailOk.
    destruct (fullMatch emailPattern email); cbn [negb]; [|done].
    destruct (consentOf body); cbn [negb]; [|done].
    destruct valid; cbn [negb]; [|done].
    destruct Hbad as [?|[?|(key & Hkey & Hno)]]; try done.
    destruct (proj1 (validAnswers_spec body) Hvalid key Hkey)
      as (z & Hz & Heq).
    by destruct (Hno z Hz).
  - intros leads. unfold matchLeadHandler.
    destruct (readFields body) as [[[[email score] percentage] valid]|]
      eqn:Hfields; [|done].
    apply readFields_Some in Hfields as (Hemail & _ & _ & Hvalid).
    unfold emailOk. fold (consentOf body).
    destruct (fullMatch emailPattern email) eqn:Hmatch; cbn [negb]; [|done].
    destruct (consentOf body) eqn:Hconsent; cbn [negb]; [|done].
    destruct valid; cbn [negb]; [|done].
    intros _. exists email. split; [done|]. split; [done|]. split; [done|].
    by apply validAnswers_spec.
  - intros Hthrows. apply readFields_None in Hthrows.
    unfold matchLeadHandler. by rewrite Hthrows.
Qed.

End MatchLead.

(** The three rejections of the specification: q2 = 0, the email
    "not-an-email", and consent false. *)
Example match_lead_rejections :
  rejected (matchLeadHandler (H := asciiRuntime)
              (submission (str "a@b.se") (VBool true) (int 5) (int 0) (int 3) (int 3))
              freshDisk) = Some IncompleteAnswers
  ∧ rejected (matchLeadHandler (H := asciiRuntime)
                (submission (str "not-an-email") (VBool true)
                   (int 5) (int 4) (int 3) (int 3))
                freshDisk) = Some InvalidEmail
  ∧ rejected (matchLeadHandler (H := asciiRuntime)
                (submission (str "a@b.se") (VBool false)
                   (int 5) (int 4) (int 3) (int 3))
                freshDisk) = Some ConsentRequired.
Proof. repeat split; vm_compute; reflexivity. Qed.

Lemma C9_witness :
  status (matchLeadHandler (H := asciiRuntime)
            (submission (str "a@b.se") (VBool true) (int 5) (int 0) (int 3) (int 3))
            freshDisk) = 400%Z
  ∧ written (matchLeadHandler (H := asciiRuntime)
               (submission (str "a@b.se") (VBool true)
                  (int 5) (int 0) (int 3) (int 3))
               freshDisk) = None.
Proof.
  apply (proj1 (C9_rejected_unless_three_checks_pass (H := asciiRuntime)
                  (submission (str "a@b.se") (VBool true)
                     (int 5) (int 0) (int 3) (int 3))
                  freshDisk)
           (lit "a@b.se")).
  - reflexivity.
  - by eexists.
  - by eexists.
  - intros key Hkey. unfold answerKeys in Hkey.
    repeat (apply elem_of_cons in Hkey as [->|Hkey]; [by eexists|]).
    by apply elem_of_nil in Hkey.
  - right. right. exists (lit "q2"). split.
    + apply list_elem_of_In. vm_compute. tauto.
    + intros z Hz. vm_compute. intros [= <-]. lia.
Defined.

(** C9 does not hold as it stands.  First, for the answers as they are
    sent: [true] is not an integer from 1 to 5, yet [Number(true)] is 1, so
    the submission is accepted and the lead is written with q1 = 1.
    Second, for a request with an invalid email whose [score] is an object
    with a property [toString]: [Number] throws on it before the email is
    tested, and the answer is 500, not 400. *)
Lemma C9_coerced_answer_counterexample :
  (getProp (answersOf (submission (str "a@b.se") (VBool true)
                         (VBool true) (int 3) (int 3) (int 3))) (lit "q1")
     = VBool true
   ∧ status (matchLeadHandler (H := asciiRuntime)
               (submission (str "a@b.se") (VBool true)
                  (VBool true) (int 3) (int 3) (int 3))
               freshDisk) = 200%Z
   ∧ written (matchLeadHandler (H := asciiRuntime)
                (submission (str "a@b.se") (VBool true)
                   (VBool true) (int 3) (int 3) (int 3))
                freshDisk)
     = Some [ VObj [ field "email" (str "a@b.se");
                     field "consent" (VBool true);
                     field "answers"
                       (VObj [field "q1" (int 1); field "q2" (int 3);
                              field "q3" (int 3); field "q4" (int 3)]);
                     field "score" (int 12);
                     field "percentage" (int 60);
                     field "createdAt" (str "2024-01-02T03:04:05.678Z");
                     field "source" (str "match-form") ] ])
  ∧ (emailOf (H := asciiRuntime) unprintableScore = Some (lit "not-an-email")
     ∧ fullMatch emailPattern (lit "not-an-email") = false
     ∧ status (matchLeadHandler (H := asciiRuntime) unprintableScore freshDisk)
       = 500%Z).
Proof. repeat split; vm_compute; reflexivity. Qed.

(** ** The lead store: reading *)

Lemma insertSorted_Permutation compare x l sorted :
  insertSorted compare x l = Some sorted → sorted ≡ₚ x :: l.
Proof.
  revert sorted. induction l as [|y l IH]; intros sorted; simpl.
  - by intros [= <-].
  - destruct (compare x y) as [c|]; [|done]. cbn.
    destruct (c <=? 0)%Z; [by intros [= <-]|].
    destruct (insertSorted compare x l) as [rest|]; [|done]. cbn.
    intros [= <-]. rewrite (IH rest eq_refl). apply Permutation_swap.
Qed.

Lemma insertSorted_cons compare x y rest :
  insertSorted compare x (y :: rest)
  = c ← compare x y;
    if (c <=? 0)%Z then Some (x :: y :: rest)
    else cons y <$> insertSorted compare x rest.
Proof. reflexivity. Qed.

Lemma sortBy_cons compare x l :
  sortBy compare (x :: l) = sortBy compare l ≫= insertSorted compare x.
Proof. reflexivity. Qed.

Lemma sortBy_Permutation compare l sorted :
  sortBy compare l = Some sorted → sorted ≡ₚ l.
Proof.
  revert sorted. induction l as [|x l IH]; intros sorted; simpl.
  - by intros [= <-].
  - fold (sortBy compare l). destruct (sortBy compare l) as [rest|]; [|done].
    cbn. intros Hins%insertSorted_Permutation.
    rewrite Hins. f_equiv. by apply IH.
Qed.

Lemma comparedItems_Permutation l :
  comparedItems l ++ List.filter isUndefined l ≡ₚ l.
Proof.
  unfold comparedItems. induction l as [|x l IH]; [done|].
  cbn [List.filter]. destruct (isUndefined x); cbn [negb].
  - by rewrite <- Permutation_middle, IH.
  - cbn [app]. by rewrite IH.
Qed.

Lemma sortArray_Permutation compare l sorted :
  sortArray compare l = Some sorted → sorted ≡ₚ l.
Proof.
  unfold sortArray.
  destruct (sortBy compare (comparedItems l)) as [s|] eqn:Hsort; [|done].
  cbn. intros [= <-]. rewrite (sortBy_Permutation _ _ _ Hsort).
  apply comparedItems_Permutation.
Qed.

(** Where nothing is [undefined], everything is compared. *)
Lemma sortArray_defined compare l :
  Forall (λ v, isUndefined v = false) l →
  sortArray compare l = sortBy compare l.
Proof.
  intros Hl. unfold sortArray, comparedItems.
  assert (List.filter (λ v, negb (isUndefined v)) l = l
          ∧ List.filter isUndefined l = []) as [-> ->].
  { induction Hl as [|x l Hx _ [IH1 IH2]]; [done|].
    cbn [List.filter]. rewrite Hx. cbn [negb]. by rewrite IH1, IH2. }
  destruct (sortBy compare l) as [s|]; [|done]. cbn. by rewrite app_nil_r.
Qed.

Section LeadStore.
Context `{!Runtime}.

Lemma byCreatedAtDesc_Some a b ka kb :
  createdAtKey a = Some ka → createdAtKey b = Some kb →
  byCreatedAtDesc a b = Some (localeCompare kb ka).
Proof. unfold byCreatedAtDesc. by intros -> ->. Qed.

Lemma stamped_key lead stamp :
  stamped lead stamp → createdAtKey lead = Some stamp.
Proof.
  unfold createdAtKey, orElse.
  intros [Hs|(-> & Hfalsy & ? & ?)]; destruct lead; try done;
    rewrite ?Hs, ?Hfalsy; try done.
  by destruct stamp.
Qed.

(** An array of leads that all have a [createdAt] to go by is sorted as it
    stands. *)
Lemma readMatchLeads_stamped parsed stamps :
  Forall2 stamped parsed stamps →
  readMatchLeads (Parsed (VArr parsed)) = sortBy byCreatedAtDesc parsed.
Proof.
  intros Hstamps. cbn [readMatchLeads]. apply sortArray_defined.
  induction Hstamps as [|lead stamp l ks Hlead _ IH]; constructor; [|done].
  destruct Hlead as [Hs|(_ & _ & _ & ?)]; by destruct lead.
Qed.

(** Sorting leads whose keys can be read, the leads being related to their
    keys by [keyed]. *)
Section Keyed.
Context (keyed : value → jsstring → Prop).
Context (keyed_key : ∀ lead k, keyed lead k → createdAtKey lead = Some k).

Lemma insertSorted_keyed x kx l ks :
  keyed x kx → Forall2 keyed l ks →
  ∃ sorted ks',
    insertSorted byCreatedAtDesc x l = Some sorted
    ∧ Forall2 keyed sorted ks'
    ∧ ks' ≡ₚ kx :: ks
    ∧ (collationTotal → collationTransitive →
       descending ks → descending ks').
Proof.
  intros Hx Hl. induction Hl as [|y ky l ks Hy Hl IH].
  - exists [x], [kx]. split; [done|]. split; [by repeat constructor|].
    split; [done|]. intros _ _ _. by repeat constructor.
  - rewrite insertSorted_cons,
      (byCreatedAtDesc_Some x y kx ky) by by apply keyed_key.
    cbn [mbind option_bind].
    destruct (Z.leb_spec (localeCompare ky kx) 0) as [Hle|Hgt].
    + exists (x :: y :: l), (kx :: ky :: ks). split; [done|].
      split; [by repeat constructor|]. split; [done|].
      intros _ Htrans Hsorted. constructor; [done|].
      apply StronglySorted_inv in Hsorted as [_ Hky].
      constructor; [done|]. eapply Forall_impl; [exact Hky|].
      intros t Ht. cbn in *. by eapply Htrans.
    + destruct IH as (sorted & ks' & -> & Hkeyed & Hperm & Hdesc). cbn.
      exists (y :: sorted), (ky :: ks'). split; [done|].
      split; [by constructor|]. split.
      { rewrite Hperm. apply Permutation_swap. }
      intros Htotal Htrans Hsorted.
      apply StronglySorted_inv in Hsorted as [Hks Hky].
      constructor; [by apply Hdesc|]. rewrite Hperm.
      constructor; [|done]. destruct (Htotal kx ky); [done|lia].
Qed.

Lemma sortBy_keyed l ks :
  Forall2 keyed l ks →
  ∃ sorted ks',
    sortBy byCreatedAtDesc l = Some sorted
    ∧ Forall2 keyed sorted ks'
    ∧ ks' ≡ₚ ks
    ∧ (collationTotal → collationTransitive → descending ks').
Proof.
  induction 1 as [|x kx l ks Hx Hl (sorted & ks' & Hsort & Hkeyed & Hperm & Hdesc)].
  - exists [], []. split; [done|]. split; [done|]. split; [done|].
    intros _ _. constructor.
  - rewrite sortBy_cons, Hsort. cbn [mbind option_bind].
    destruct (insertSorted_keyed x kx sorted ks' Hx Hkeyed)
      as (sorted' & ks'' & Hins & Hkeyed' & Hperm' & Hdesc').
    exists sorted', ks''. split; [done|]. split; [done|].
    split; [by rewrite Hperm', Hperm|].
    intros Htotal Htrans. apply Hdesc'; [done|done|]. by apply Hdesc.
Qed.

(** Already in descending order: nothing moves. *)
Lemma sortBy_descending l ks :
  Forall2 keyed l ks → descending ks → sortBy byCreatedAtDesc l = Some l.
Proof.
  intros Hl. induction Hl as [|x kx l ks Hx Hl IH]; [done|].
  intros [Hks Hkx]%StronglySorted_inv.
  rewrite sortBy_cons, IH by done. cbn [mbind option_bind].
  destruct Hl as [|y ky l ks Hy Hl]; [done|].
  rewrite insertSorted_cons,
    (byCreatedAtDesc_Some x y kx ky) by by apply keyed_key.
  cbn [mbind option_bind]. apply Forall_cons in Hkx as [Hle _].
  by destruct (Z.leb_spec (localeCompare ky kx) 0); [|lia].
Qed.

End Keyed.

(** C5, as the code has it. [readMatchLeads] answers the empty sequence
    when the file is absent and when the parsed document is not a sequence,
    without failing.  Otherwise, for a sequence of leads each of which has
    a string as [createdAt], or no [createdAt] or a falsy one, it answers
    the same leads reordered so that their [createdAt] strings, the empty
    string standing for a missing or falsy one, descend in the order of
    [String.prototype.localeCompare], the collation of the runtime's locale
    (a total preorder). *)
Theorem C5_readMatchLeads_sorted_by_localeCompare :
  readMatchLeads (ReadError ENOENT) = Some []
  ∧ (∀ doc, (∀ items, doc ≠ VArr items) → readMatchLeads (Parsed doc) = Some [])
  ∧ (∀ parsed stamps, Forall2 stamped parsed stamps →
       ∃ leads sorted,
         readMatchLeads (Parsed (VArr parsed)) = Some leads
         ∧ leads ≡ₚ parsed
         ∧ Forall2 stamped leads sorted
         ∧ sorted ≡ₚ stamps
         ∧ (collationTotal → collationTransitive → descending sorted)).
Proof.
  split; [done|]. split.
  - intros doc Hdoc. destruct doc; try done. by destruct (Hdoc items).
  - intros parsed stamps Hstamps.
    rewrite (readMatchLeads_stamped parsed stamps Hstamps).
    destruct (sortBy_keyed stamped stamped_key parsed stamps Hstamps)
      as (leads & sorted & Hsort & Hkeyed & Hperm & Hdesc).
    exists leads, sorted. split; [done|].
    split; [by apply (sortBy_Permutation byCreatedAtDesc)|]. done.
Qed.

(** Whatever else the collation does: once it puts "a" before "B", the
    lead created at "B" is answered first. *)
Lemma readMatchLeads_follows_collation :
  (0 < localeCompare (lit "B") (lit "a"))%Z →
  readMatchLeads (Parsed (VArr [leadAt "a"; leadAt "B"]))
    = Some [leadAt "B"; leadAt "a"].
Proof.
  intros Hcollation.
  rewrite (readMatchLeads_stamped _ [lit "a"; lit "B"])
    by (repeat constructor; by left).
  rewrite !sortBy_cons. cbn [sortBy foldr mbind option_bind].
  change (insertSorted byCreatedAtDesc (leadAt "B") []) with (Some [leadAt "B"]).
  cbn [mbind option_bind].
  rewrite insertSorted_cons,
    (byCreatedAtDesc_Some _ _ (lit "a") (lit "B")) by done.
  cbn [mbind option_bind].
  by destruct (Z.leb_spec (localeCompare (lit "B") (lit "a")) 0); [lia|].
Qed.

End LeadStore.

(** The sample collation is a total preorder. *)
Lemma collate_total s t : (collate s t ≤ 0 ∨ collate t s ≤ 0)%Z.
Proof.
  revert t. induction s as [|a s IH]; intros [|b t]; simpl; try lia.
  rewrite (Z.compare_antisym (collationWeight a) (collationWeight b)).
  destruct (collationWeight a ?= collationWeight b)%Z; simpl; try lia.
  apply IH.
Qed.

Lemma collate_trans s t u :
  (collate s t ≤ 0 → collate t u ≤ 0 → collate s u ≤ 0)%Z.
Proof.
  revert t u. induction s as [|a s IH]; intros [|b t] [|c u]; simpl; try lia.
  destruct (Z.compare_spec (collationWeight a) (collationWeight b));
    destruct (Z.compare_spec (collationWeight b) (collationWeight c));
    destruct (Z.compare_spec (collationWeight a) (collationWeight c));
    try lia.
  apply IH.
Qed.

(** The sort order of the specification's example: the lead of 2 January
    comes back before the lead of 1 January. *)
Example readMatchLeads_newest_first :
  readMatchLeads (H := asciiRuntime)
    (Parsed (VArr [leadAt "2024-01-01T10:00:00.000Z";
                   leadAt "2024-01-02T10:00:00.000Z"]))
  = Some [leadAt "2024-01-02T10:00:00.000Z";
          leadAt "2024-01-01T10:00:00.000Z"].
Proof. vm_compute. reflexivity. Qed.

Lemma C5_witness :
  ∃ leads sorted,
    readMatchLeads (H := asciiRuntime)
      (Parsed (VArr [leadAt "2024-01-01T10:00:00.000Z";
                     leadAt "2024-01-02T10:00:00.000Z"])) = Some leads
    ∧ leads ≡ₚ [leadAt "2024-01-01T10:00:00.000Z";
                leadAt "2024-01-02T10:00:00.000Z"]
    ∧ Forall2 stamped leads sorted
    ∧ sorted ≡ₚ [lit "2024-01-01T10:00:00.000Z";
                 lit "2024-01-02T10:00:00.000Z"]
    ∧ descending (H := asciiRuntime) sorted.
Proof.
  destruct (C5_readMatchLeads_sorted_by_localeCompare (H := asciiRuntime))
    as (_ & _ & Hsorted).
  destruct (Hsorted [leadAt "2024-01-01T10:00:00.000Z";
                     leadAt "2024-01-02T10:00:00.000Z"]
              [lit "2024-01-01T10:00:00.000Z";
               lit "2024-01-02T10:00:00.000Z"])
    as (leads & sorted & Hread & Hperm & Hstamped & Hperm' & Hdesc).
  - repeat constructor; by left.
  - exists leads, sorted. repeat (split; [done|]). apply Hdesc.
    + intros s t. apply collate_total.
    + intros s t u. apply collate_trans.
Defined.

(** C5 does not hold with "plain lexicographic string comparison": a
    collation puts "a" before "B", the code units put "B" before "a".  So
    the code answers the lead created at "B" first, where descending
    code-unit order keeps the lead created at "a" first. *)
Lemma C5_collation_counterexample :
  readMatchLeads (H := asciiRuntime) (Parsed (VArr [leadAt "a"; leadAt "B"]))
    = Some [leadAt "B"; leadAt "a"]
  ∧ sortArray (specByCreatedAtDesc (H := asciiRuntime))
      [leadAt "a"; leadAt "B"]
    = Some [leadAt "a"; leadAt "B"]
  ∧ (codeUnitCompare (lit "B") (lit "a") < 0)%Z
  ∧ (localeCompare (Runtime := asciiRuntime) (lit "a") (lit "B") < 0)%Z.
Proof. repeat split; vm_compute; reflexivity. Qed.

(** ** The finalizer on sample texts *)

(** The length [maxChars + 1] is reached: three letters under a bound of
    three get their full stop. *)
Example finalizeReply_appends_stop :
  finalizeReply (H := asciiRuntime) (VStr (lit "abc")) 3 4 = lit "abc.".
Proof. reflexivity. Qed.

(** A terminator at offset 0 does not count as found. *)
Example finalizeReply_leading_stop :
  finalizeReply (H := asciiRuntime) (VStr (lit ".abc")) 520 4 = lit ".abc.".
Proof. reflexivity. Qed.

Lemma C6_witness :
  finalizeReply (H := asciiRuntime)
    (VStr (finalizeReply (H := asciiRuntime)
             (VStr (lit "  Hi   there " ++ lit "!?")) 520 4)) 520 4
  = finalizeReply (H := asciiRuntime)
      (VStr (lit "  Hi   there " ++ lit "!?")) 520 4.
Proof.
  apply (C6_finalizeReply_idempotent_on_sentence (H := asciiRuntime));
    [discriminate | reflexivity | discriminate | reflexivity
    | vm_compute; lia].
Defined.

Lemma C8_witness :
  finalizeReply (H := asciiRuntime) (VStr longText) 520 4
    = take 46 (candidateOf (H := asciiRuntime)
                 (trim (collapseSpaces longText)) 4)
  ∧ length (finalizeReply (H := asciiRuntime) (VStr longText) 520 4) = 46%nat
  ∧ last (finalizeReply (H := asciiRuntime) (VStr longText) 520 4) = Some DOT.
Proof.
  apply (C8_cut_at_terminator_45 (H := asciiRuntime));
    [reflexivity | vm_compute; lia | vm_compute; reflexivity ..].
Defined.

Lemma C10_witness :
  dedupe (H := asciiRuntime) ∅ ([lit "Hi."] ++ lit " - ." :: [lit " Bye."])
  = dedupe (H := asciiRuntime) ∅ ([lit "Hi."] ++ [lit " Bye."]).
Proof.
  apply (C10_empty_key_segment_dropped (H := asciiRuntime)).
  vm_compute. reflexivity.
Defined.

(** The segment " - ." of "Hi. - . Bye." leaves no trace in the reply. *)
Example finalizeReply_drops_punctuation_segment :
  sentenceParts (lit "Hi. - . Bye.") = [lit "Hi."; lit " - ."; lit " Bye."]
  ∧ finalizeReply (H := asciiRuntime) (VStr (lit "Hi. - . Bye.")) 520 4
    = lit "Hi. Bye.".
Proof. split; vm_compute; reflexivity. Qed.

(** * Further properties of the code *)

(** ** The sentence pattern splits the text *)

(** The scanner under its invariant: the pending run has no terminator,
    the pending terminators are terminators, and there are none without a
    run. *)
Lemma matchSentences_decompose run stops s :
  stopFree run = true → forallb isStop stops = true →
  (run = [] → stops = []) →
  ∃ skip rest,
    run ++ stops ++ s = skip ++ concat (matchSentences run stops s) ++ rest
    ∧ forallb isStop skip = true ∧ stopFree rest = true
    ∧ (run ≠ [] → skip = []).
Proof.
  revert run stops. induction s as [|c s IH]; intros run stops Hrun Hstops Hinv.
  - simpl. destruct stops as [|d stops]; simpl.
    + exists [], run. rewrite app_nil_r. done.
    + exists [], []. simpl. rewrite !app_nil_r. done.
  - simpl. destruct (isStop c) eqn:Hc.
    + destruct run as [|r0 run]; simpl.
      * rewrite (Hinv eq_refl). destruct (IH [] []) as (skip & rest & Heq & ? & ? & _);
          try done.
        simpl in Heq. exists (c :: skip), rest. simpl. rewrite Hc, <- Heq. done.
      * destruct (IH (r0 :: run) (stops ++ [c])) as (skip & rest & Heq & ? & ? & Hskip);
          try done.
        { rewrite forallb_app, Hstops. simpl. by rewrite Hc. }
        exists skip, rest. rewrite <- Heq. split; [|done].
        simpl. by rewrite <- !app_assoc.
    + destruct stops as [|d stops]; simpl.
      * destruct (IH (run ++ [c]) []) as (skip & rest & Heq & ? & ? & Hskip);
          try done.
        { unfold stopFree in *. rewrite forallb_app, Hrun. simpl. by rewrite Hc. }
        exists skip, rest. rewrite <- Heq. split; [|split; [done|split; [done|]]].
        -- by rewrite <- !app_assoc.
        -- intros _. apply Hskip. by destruct run.
      * destruct (IH [c] []) as (skip & rest & Heq & ? & ? & Hskip); try done.
        { unfold stopFree. simpl. by rewrite Hc. }
        rewrite (Hskip ltac:(done)) in Heq. simpl in Heq.
        exists [], rest. simpl. split; [|split; [done|split; [done|]]].
        -- rewrite <- !app_assoc. simpl. rewrite <- Heq. done.
        -- done.
Qed.

(** X1. The segments found by the pattern are consecutive pieces of the
    text: the text is some leading terminators (which no match can start
    with), then the segments one after the other, then a tail without
    terminator (which matches nothing).  Nothing else is skipped. *)
Theorem sentenceParts_partition (normalized : jsstring) :
  ∃ skip rest,
    normalized = skip ++ concat (sentenceParts normalized) ++ rest
    ∧ forallb isStop skip = true ∧ stopFree rest = true.
Proof.
  destruct (matchSentences_decompose [] [] normalized)
    as (skip & rest & Heq & ? & ? & _); try done.
  by exists skip, rest.
Qed.

Lemma matchSentences_shape run stops s :
  stopFree run = true → forallb isStop stops = true →
  (run = [] → stops = []) →
  Forall isSentence (matchSentences run stops s).
Proof.
  revert run stops. induction s as [|c s IH]; intros run stops Hrun Hstops Hinv.
  - simpl. destruct stops as [|d stops]; simpl; [done|].
    constructor; [|done]. exists run, (d :: stops).
    repeat split; try done. intros ->. by specialize (Hinv eq_refl).
  - simpl. destruct (isStop c) eqn:Hc.
    + destruct run as [|r0 run]; simpl; apply IH; try done.
      rewrite forallb_app, Hstops. simpl. by rewrite Hc.
    + destruct stops as [|d stops]; simpl.
      * apply IH; try done.
        unfold stopFree in *. rewrite forallb_app, Hrun. simpl. by rewrite Hc.
      * constructor.
        -- exists run, (d :: stops). repeat split; try done.
           intros ->. by specialize (Hinv eq_refl).
        -- apply IH; try done. unfold stopFree. simpl. by rewrite Hc.
Qed.

(** X2. Every segment is a sentence: it starts with a non-empty run free
    of terminators and ends with all the terminators that follow it. *)
Theorem sentenceParts_sentences (normalized : jsstring) :
  Forall isSentence (sentenceParts normalized).
Proof. by apply matchSentences_shape. Qed.

(** ** Deduplication keeps first occurrences *)

Section DedupeKeys.
Context `{!Runtime}.

(** X3. The surviving sentences are the trimmed forms of a subsequence of
    the segments, in their order, in which no key occurs twice and no key
    is empty or already seen; and every segment with a non-empty key not
    seen before has its key among the survivors' keys: of the segments that
    share a key exactly one survives. *)
Theorem dedupe_keeps_one_per_key (seen : gset jsstring) (parts : list jsstring) :
  ∃ kept,
    dedupe seen parts = trim <$> kept
    ∧ kept `sublist_of` parts
    ∧ NoDup (sentenceKey <$> kept)
    ∧ (∀ s, s ∈ kept → sentenceKey s ≠ [] ∧ sentenceKey s ∉ seen)
    ∧ (∀ s, s ∈ parts → sentenceKey s ≠ [] → sentenceKey s ∉ seen →
         sentenceKey s ∈ sentenceKey <$> kept).
Proof.
  revert seen. induction parts as [|p parts IH]; intros seen.
  - exists []. split; [done|]. split; [done|]. split; [constructor|].
    split; intros s Hs; by apply elem_of_nil in Hs.
  - cbn [dedupe]. destruct (isEmpty (sentenceKey p)) eqn:Hempty; cbn [orb].
    { apply isEmpty_true in Hempty.
      destruct (IH seen) as (kept & Heq & Hsub & Hnodup & Hkept & Hall).
      exists kept. split; [done|]. split; [by apply sublist_cons|].
      split; [done|]. split; [done|].
      intros s Hs Hne Hnew. apply elem_of_cons in Hs as [->|Hs]; [done|].
      by apply Hall. }
    assert (sentenceKey p ≠ []) as Hne by (intros Hk; by rewrite Hk in Hempty).
    destruct (bool_decide (sentenceKey p ∈ seen)) eqn:Hseen.
    + apply bool_decide_eq_true in Hseen.
      destruct (IH seen) as (kept & Heq & Hsub & Hnodup & Hkept & Hall).
      exists kept. split; [done|]. split; [by apply sublist_cons|].
      split; [done|]. split; [done|].
      intros s Hs Hne' Hnew. apply elem_of_cons in Hs as [->|Hs]; [done|].
      by apply Hall.
    + apply bool_decide_eq_false in Hseen.
      destruct (IH ({[sentenceKey p]} ∪ seen))
        as (kept & Heq & Hsub & Hnodup & Hkept & Hall).
      exists (p :: kept). rewrite Heq. split; [done|].
      split; [by apply sublist_skip|]. split; [|split].
      * rewrite fmap_cons. apply NoDup_cons. split; [|done].
        intros Hin. apply list_elem_of_fmap in Hin as (s & Hks & Hs).
        destruct (Hkept s Hs) as [_ Hnot]. apply Hnot.
        apply elem_of_union_l, elem_of_singleton. done.
      * intros s Hs. apply elem_of_cons in Hs as [->|Hs]; [done|].
        destruct (Hkept s Hs) as [? Hnot]. split; [done|].
        intros Hin. by apply Hnot, elem_of_union_r.
      * intros s Hs Hne' Hnew. rewrite fmap_cons.
        destruct (decide (sentenceKey s = sentenceKey p)) as [->|Hdiff];
          [by left|].
        right. apply elem_of_cons in Hs as [->|Hs]; [done|].
        apply Hall; [done|done|].
        intros [Hin|Hin]%elem_of_union; [|done].
        by apply elem_of_singleton in Hin.
Qed.

End DedupeKeys.

(** ** Blank texts, texts without terminator, and the shape of the reply *)

Lemma trimEnd_nil s : trimEnd s = [] ↔ blank s = true.
Proof.
  unfold blank. induction s as [|c s IH]; simpl; [done|].
  destruct (trimEnd s) as [|d t].
  - destruct (isWhiteSpace c); simpl; [by rewrite <- IH|done].
  - split; [done|]. rewrite andb_true_iff. intros [_ Hs].
    by apply IH in Hs.
Qed.

Lemma trimStart_nil s : trimStart s = [] ↔ blank s = true.
Proof.
  unfold blank. induction s as [|c s IH]; simpl; [done|].
  by destruct (isWhiteSpace c).
Qed.

Lemma blank_trimStart s : blank (trimStart s) = true → blank s = true.
Proof.
  unfold blank. induction s as [|c s IH]; simpl; [done|].
  destruct (isWhiteSpace c) eqn:Hc; [done|]. simpl. by rewrite Hc.
Qed.

Lemma trim_nil s : trim s = [] ↔ blank s = true.
Proof.
  unfold trim. rewrite trimEnd_nil. split.
  - apply blank_trimStart.
  - intros Hs. apply trimStart_nil in Hs. by rewrite Hs.
Qed.

Lemma blank_collapseFrom b s : blank (collapseFrom b s) = blank s.
Proof.
  unfold blank. revert b. induction s as [|c s IH]; intros b; simpl; [done|].
  destruct (isWhiteSpace c) eqn:Hc; [destruct b|]; simpl;
    by rewrite ?Hc, ?IH.
Qed.

Lemma normalized_nil s : trim (collapseSpaces s) = [] ↔ blank s = true.
Proof. rewrite trim_nil. unfold collapseSpaces. by rewrite blank_collapseFrom. Qed.

Lemma terminate_nonempty candidate : terminate candidate ≠ [].
Proof.
  intros Hnil. pose proof (terminate_ends candidate) as He.
  by rewrite Hnil in He.
Qed.

Lemma stopFree_trimEnd s : stopFree s = true → stopFree (trimEnd s) = true.
Proof.
  unfold stopFree. induction s as [|c s IH]; simpl; [done|].
  rewrite andb_true_iff. intros [Hc Hs]. specialize (IH Hs).
  destruct (trimEnd s) as [|d t].
  - destruct (isWhiteSpace c); simpl; [done|]. by rewrite Hc.
  - cbn [forallb] in *. by rewrite Hc, IH.
Qed.

Lemma stopFree_take n s : stopFree s = true → stopFree (take n s) = true.
Proof.
  unfold stopFree. revert n. induction s as [|c s IH]; intros [|n]; simpl;
    try done.
  rewrite !andb_true_iff. intros [Hc Hs]. split; [done|]. by apply IH.
Qed.

Lemma stopFree_endsWithStop s : stopFree s = true → endsWithStop s = false.
Proof.
  intros Hs. destruct (endsWithStop s) eqn:He; [|done].
  apply endsWithStop_inv in He as (s' & c & -> & Hc).
  unfold stopFree in Hs. rewrite forallb_app in Hs. simpl in Hs.
  rewrite Hc in Hs. by rewrite !andb_false_r in Hs.
Qed.

Section FinalizerShape.
Context `{!Runtime}.

(** X4. The reply is empty exactly when the text is not a string or is a
    string of nothing but white space (the empty string included); any
    other text gets a non-empty reply, whatever the bounds. *)
Theorem finalizeReply_empty_iff_blank
    (text : value) (maxChars maxSentences : nat) :
  finalizeReply text maxChars maxSentences = []
  ↔ ∀ s, text = VStr s → blank s = true.
Proof.
  unfold finalizeReply. destruct text as [| | | |s| |];
    try (split; [by intros _ s'|done]).
  destruct (isEmpty s) eqn:Hs.
  { apply isEmpty_true in Hs as ->. split; [|done]. by intros _ s' [= <-]. }
  destruct (isEmpty (trim (collapseSpaces s))) eqn:Hn.
  - apply isEmpty_true, normalized_nil in Hn.
    split; [|done]. by intros _ s' [= <-].
  - split.
    + intros Hnil. by apply terminate_nonempty in Hnil.
    + intros Hblank. specialize (Hblank s eq_refl).
      apply normalized_nil in Hblank. by rewrite Hblank in Hn.
Qed.

(** X6. A text without any terminator is treated as literal text: the
    reply is its normalised form, cut to [maxChars] units and trimmed, with
    a full stop appended ([maxSentences] plays no part). *)
Theorem finalizeReply_without_terminator
    (s : jsstring) (maxChars maxSentences : nat) :
  stopFree s = true →
  finalizeReply (VStr s) maxChars maxSentences
    = if isEmpty (trim (collapseSpaces s)) then []
      else trim (take maxChars (trim (collapseSpaces s))) ++ [DOT].
Proof.
  intros Hs. unfold finalizeReply.
  destruct (isEmpty s) eqn:Hempty.
  { apply isEmpty_true in Hempty as ->. reflexivity. }
  set (n := trim (collapseSpaces s)).
  destruct (isEmpty n) eqn:Hn; [done|].
  assert (stopFree n = true) as Hfree.
  { apply stopFree_trimEnd, stopFree_trimStart. by apply stopFree_collapseFrom. }
  assert (candidateOf n maxSentences = n) as ->.
  { unfold candidateOf, uniqueSentences.
    by rewrite sentenceParts_unterminated. }
  assert (clip n maxChars = trim (take maxChars n)) as ->.
  { unfold clip. destruct (Nat.ltb_spec maxChars (length n)).
    - cbn zeta. rewrite lastStop_absent; [done|].
      by apply stopFree_Forall, stopFree_take.
    - rewrite take_ge by done. symmetry. apply trim_idemp. }
  set (c := trim (take maxChars n)).
  assert (stopFree c = true) as Hc.
  { apply stopFree_trimEnd, stopFree_trimStart. by apply stopFree_take. }
  unfold terminate. rewrite stopFree_endsWithStop by done. cbn [negb].
  rewrite lastStop_absent by by apply stopFree_Forall.
  apply trim_clean_snoc; [apply cleanStart_trim|done].
Qed.

End FinalizerShape.

Lemma finalizeReply_without_terminator_witness :
  finalizeReply (H := asciiRuntime) (VStr (lit "  hello   world ")) 7 4
    = lit "hello w.".
Proof.
  rewrite (finalizeReply_without_terminator (H := asciiRuntime));
    [reflexivity|reflexivity].
Defined.

(** ** The reply is normalised text *)

Lemma tidy_app_l b s t : tidyFrom b (s ++ t) = true → tidyFrom b s = true.
Proof.
  revert b. induction s as [|c s IH]; intros b; simpl; [done|].
  destruct (isWhiteSpace c); [|apply IH].
  rewrite !andb_true_iff. intros [? Hs]. split; [done|]. by eapply IH.
Qed.

Lemma tidy_app_r b s t : tidyFrom b (s ++ t) = true → tidyFrom false t = true.
Proof.
  revert b. induction s as [|c s IH]; intros b; simpl.
  - apply tidyFrom_weaken.
  - destruct (isWhiteSpace c); [|apply IH].
    rewrite !andb_true_iff. intros [_ Hs]. by eapply IH.
Qed.

Lemma tidy_take b n s : tidyFrom b s = true → tidyFrom b (take n s) = true.
Proof.
  intros Hs. rewrite <- (take_drop n s) in Hs. by eapply tidy_app_l.
Qed.

(** After a unit that is not white space the rest starts afresh. *)
Lemma tidy_app_solid b s x t :
  isWhiteSpace x = false →
  tidyFrom b (s ++ [x]) = true → tidyFrom false t = true →
  tidyFrom b ((s ++ [x]) ++ t) = true.
Proof.
  intros Hx. revert b. induction s as [|c s IH]; intros b; simpl.
  - by rewrite Hx.
  - destruct (isWhiteSpace c); [|apply IH].
    rewrite !andb_true_iff. intros [? Hs] Ht. split; [done|]. by apply IH.
Qed.

Lemma tidy_snoc b s x :
  isWhiteSpace x = false → tidyFrom b s = true → tidyFrom b (s ++ [x]) = true.
Proof.
  intros Hx. revert b. induction s as [|c s IH]; intros b; simpl.
  - by rewrite Hx.
  - destruct (isWhiteSpace c); [|apply IH].
    rewrite !andb_true_iff. intros [? Hs]. split; [done|]. by apply IH.
Qed.

Lemma tidy_after_space s :
  cleanStart s → tidyFrom false s = true → tidyFrom true s = true.
Proof. destruct s as [|c s]; simpl; [done|]. by intros ->. Qed.

Lemma tidy_trim s : tidyFrom false s = true → tidyFrom false (trim s) = true.
Proof. intros Hs. unfold trim. by apply tidy_trimEnd, tidy_trimStart. Qed.

Lemma tidy_concat b parts :
  tidyFrom b (concat parts) = true → Forall (λ p, tidyFrom false p = true) parts.
Proof.
  revert b. induction parts as [|p parts IH]; intros b; simpl; [done|].
  intros Hp. constructor.
  - eapply tidyFrom_weaken, tidy_app_l, Hp.
  - eapply IH, tidy_app_r, Hp.
Qed.

(** A piece of a reply: tidy, not starting with white space, ending with a
    terminator. *)
Lemma trim_sentence_piece p :
  tidyFrom false p = true → isSentence p →
  tidyFrom false (trim p) = true ∧ cleanStart (trim p)
  ∧ endsWithStop (trim p) = true.
Proof.
  intros Htidy (run & stops & -> & _ & _ & Hne & Hstops).
  split; [by apply tidy_trim|]. split; [apply cleanStart_trim|].
  destruct (stops_snoc stops Hne Hstops) as (t' & c & -> & Hc).
  rewrite app_assoc, trim_snoc by by apply isStop_not_space.
  by rewrite endsWithStop_snoc.
Qed.

Lemma join_pieces pieces :
  Forall (λ p, tidyFrom false p = true ∧ cleanStart p
               ∧ endsWithStop p = true) pieces →
  tidyFrom false (join [SPACE] pieces) = true
  ∧ cleanStart (join [SPACE] pieces).
Proof.
  induction 1 as [|p pieces (Htidy & Hclean & Hend) Hrest [IHt IHc]];
    [done|].
  destruct pieces as [|q pieces]; [done|].
  change (join [SPACE] (p :: q :: pieces))
    with (p ++ [SPACE] ++ join [SPACE] (q :: pieces)).
  apply endsWithStop_inv in Hend as (p' & c & -> & Hc). split.
  - apply tidy_app_solid; [by apply isStop_not_space|done|].
    cbn [app tidyFrom]. change (isWhiteSpace SPACE) with true. cbn.
    by apply tidy_after_space.
  - destruct p'; simpl in *; [by apply isStop_not_space|done].
Qed.

Section FinalizerNormalised.
Context `{!Runtime}.

Lemma dedupe_pieces seen parts :
  Forall (λ p, tidyFrom false p = true ∧ isSentence p) parts →
  Forall (λ p, tidyFrom false p = true ∧ cleanStart p
               ∧ endsWithStop p = true) (dedupe seen parts).
Proof.
  intros Hparts. revert seen.
  induction Hparts as [|p parts [Htidy Hsent] _ IH]; intros seen; simpl;
    [done|].
  destruct (isEmpty (sentenceKey p) || bool_decide (sentenceKey p ∈ seen));
    [apply IH|].
  constructor; [by apply trim_sentence_piece|apply IH].
Qed.

Lemma candidateOf_neat normalized maxSentences :
  tidyFrom false normalized = true → trim normalized = normalized →
  tidyFrom false (candidateOf normalized maxSentences) = true
  ∧ trim (candidateOf normalized maxSentences)
    = candidateOf normalized maxSentences.
Proof.
  intros Htidy Htrim. unfold candidateOf.
  destruct (0 <? length (uniqueSentences normalized))%nat; [|done].
  split; [|apply trim_idemp]. apply tidy_trim.
  apply join_pieces, Forall_take. unfold uniqueSentences.
  apply dedupe_pieces.
  destruct (matchSentences_decompose [] [] normalized)
    as (skip & rest & Heq & _ & _ & _); try done.
  simpl in Heq. rewrite Heq in Htidy.
  apply tidy_app_r, tidy_app_l, tidy_concat in Htidy.
  pose proof (matchSentences_shape [] [] normalized) as Hshape.
  apply Forall_and. split; [done|]. by apply Hshape.
Qed.

Lemma clip_neat candidate maxChars :
  tidyFrom false candidate = true → trim candidate = candidate →
  tidyFrom false (clip candidate maxChars) = true
  ∧ trim (clip candidate maxChars) = clip candidate maxChars.
Proof.
  intros Htidy Htrim. unfold clip.
  destruct (maxChars <? length candidate)%nat; [|done].
  split; [|apply trim_idemp]. apply tidy_trim.
  destruct (40 <? _)%Z; by repeat apply tidy_take.
Qed.

Lemma terminate_neat candidate :
  tidyFrom false candidate = true → trim candidate = candidate →
  tidyFrom false (terminate candidate) = true
  ∧ trim (terminate candidate) = terminate candidate.
Proof.
  intros Htidy Htrim. unfold terminate.
  destruct (endsWithStop candidate); cbn [negb]; [done|].
  split; [|apply trim_idemp]. apply tidy_trim.
  destruct (0 <? lastStop candidate)%Z; [by apply tidy_take|].
  by apply tidy_snoc.
Qed.

(** X5. Every reply is normalised text: it neither starts nor ends with
    white space and its only white space is single spaces, so normalising a
    reply again ([replace(/\s+/g, " ").trim()]) gives the reply back. *)
Theorem finalizeReply_normalised
    (text : value) (maxChars maxSentences : nat) :
  trim (collapseSpaces (finalizeReply text maxChars maxSentences))
    = finalizeReply text maxChars maxSentences
  ∧ tidyFrom false (finalizeReply text maxChars maxSentences) = true.
Proof.
  assert (tidyFrom false (finalizeReply text maxChars maxSentences) = true
          ∧ trim (finalizeReply text maxChars maxSentences)
            = finalizeReply text maxChars maxSentences) as [Htidy Htrim].
  { unfold finalizeReply. destruct text as [| | | |s| |]; try done.
    destruct (isEmpty s); [done|].
    destruct (isEmpty (trim (collapseSpaces s))); [done|].
    apply terminate_neat; apply clip_neat; apply candidateOf_neat;
      first [ apply tidy_trim, tidyFrom_collapseFrom | apply trim_idemp ]. }
  split; [|done]. unfold collapseSpaces. by rewrite collapseFrom_tidy.
Qed.

End FinalizerNormalised.

(** ** The lead store: writing *)

(** Induction on a value and the values inside it. *)
Lemma value_nested_ind (P : value → Prop) :
  P VUndefined → P VNull → (∀ b, P (VBool b)) → (∀ n, P (VNum n)) →
  (∀ s, P (VStr s)) →
  (∀ items, Forall P items → P (VArr items)) →
  (∀ fields, Forall (λ field, P field.2) fields → P (VObj fields)) →
  ∀ v, P v.
Proof.
  intros Hu Hn Hb Hnum Hs Harr Hobj. fix IH 1.
  intros [| |b|n|s|items|fields];
    [apply Hu|apply Hn|apply Hb|apply Hnum|apply Hs| |].
  - apply Harr. induction items as [|x items IHitems]; constructor.
    + apply IH.
    + apply IHitems.
  - apply Hobj. induction fields as [|[k x] fields IHfields]; constructor.
    + apply IH.
    + apply IHfields.
Qed.

(** What [JSON.stringify] writes reads back as JSON. *)
Lemma isJson_jsonValue v : isJson (jsonValue v) = true.
Proof.
  induction v as [| |b|n|s|items IH|fields IH] using value_nested_ind;
    try done.
  - by destruct n.
  - cbn [jsonValue isJson]. induction IH as [|x items Hx _ IHitems]; [done|].
    cbn. by rewrite Hx, IHitems.
  - cbn [jsonValue isJson].
    induction IH as [|[k x] fields Hx _ IHfields]; [done|].
    cbn [flat_map]. rewrite forallb_app, IHfields, andb_true_r.
    destruct x; try done; cbn in Hx |- *; by rewrite Hx.
Qed.

(** And JSON goes through [JSON.stringify] unchanged. *)
Lemma jsonValue_isJson v : isJson v = true → jsonValue v = v.
Proof.
  induction v as [| |b|n|s|items IH|fields IH] using value_nested_ind;
    try done.
  - by destruct n.
  - cbn [jsonValue isJson]. intros Hitems. f_equal.
    induction IH as [|x items Hx _ IHitems]; [done|].
    cbn in Hitems. apply andb_true_iff in Hitems as [? ?].
    cbn. by rewrite Hx, IHitems.
  - cbn [jsonValue isJson]. intros Hfields. f_equal.
    induction IH as [|[k x] fields Hx _ IHfields]; [done|].
    cbn in Hfields. apply andb_true_iff in Hfields as [Hjson ?].
    cbn [flat_map]. rewrite IHfields by done. cbn in Hx.
    rewrite <- (Hx Hjson) at 2. by destruct x.
Qed.

Lemma jsonValue_stable l :
  Forall (λ v, isJson v = true) l → List.map jsonValue l = l.
Proof.
  induction 1 as [|x l Hx _ IH]; [done|].
  cbn. by rewrite (jsonValue_isJson x Hx), IH.
Qed.

Lemma jsonValue_written l : Forall (λ v, isJson v = true) (List.map jsonValue l).
Proof.
  induction l as [|x l IH]; constructor; [apply isJson_jsonValue|done].
Qed.

(** The leads [saveMatchLead] finds in the file: those of a parsed array,
    none for an absent file or a document that is not an array. *)
Lemma saveMatchLead_cases lead e doc :
  saveMatchLead lead e = Some doc →
  ∃ stored,
    (fileRead e = Parsed (VArr stored)
     ∨ (stored = [] ∧ ∀ parsed, fileRead e ≠ Parsed (VArr parsed)))
    ∧ doc = List.map jsonValue stored ++ [jsonValue lead].
Proof.
  unfold saveMatchLead. destruct (canMkdir e); [|done]. cbn [negb].
  destruct (canWrite e).
  - destruct (fileRead e) as [code| |parsed].
    + destruct (bool_decide (code = ENOENT)); [|done]. intros [= <-].
      exists []. split; [by right|done].
    + done.
    + intros Hsave.
      destruct parsed as [| | | | |stored|]; injection Hsave as <-;
        first [ exists stored; split; [by left|apply List.map_app]
              | exists []; split; [by right|done] ].
  - destruct (fileRead e) as [code| |parsed]; [|done|by destruct parsed].
    by destruct (bool_decide (code = ENOENT)).
Qed.

(** When a save goes through. *)
Lemma saveMatchLead_writable lead e :
  is_Some (saveMatchLead lead e) ↔ writable e.
Proof.
  unfold saveMatchLead, writable.
  destruct (canMkdir e), (canWrite e), (fileRead e) as [code| |parsed];
    cbn [negb];
    try destruct (decide (code = ENOENT)) as [->|Hcode];
    rewrite ?bool_decide_eq_true_2, ?bool_decide_eq_false_2 by done;
    try destruct parsed;
    (split; [intros [? ?]|intros (? & ? & ? & Hcodes)]); try done;
    try (by eexists); try (by repeat split);
    try (by destruct (Hcode (Hcodes code eq_refl))).
  repeat (split; [done|]). by intros code [= <-].
Qed.

Section SaveThenRead.
Context `{!Runtime}.

(** X7. Saving only ever appends.  What a successful save writes is the
    stored array as [JSON.stringify] prints it, the new lead in last place
    (a score that is not a finite number is written as [null]).  The next
    save, finding this document in the file, writes it again unchanged and
    its own lead after it: no later save alters or drops a lead written by
    an earlier one.  And whenever the document is read back through
    [readMatchLeads], the answer holds every written lead exactly once. *)
Theorem saveMatchLead_appends (lead : value) (e : env) (doc : list value) :
  saveMatchLead lead e = Some doc →
  (∃ stored,
     (fileRead e = Parsed (VArr stored)
      ∨ (stored = [] ∧ ∀ parsed, fileRead e ≠ Parsed (VArr parsed)))
     ∧ doc = List.map jsonValue stored ++ [jsonValue lead])
  ∧ (∀ next e',
       writable e' → fileRead e' = Parsed (VArr doc) →
       saveMatchLead next e' = Some (doc ++ [jsonValue next]))
  ∧ (∀ leads, readMatchLeads (Parsed (VArr doc)) = Some leads →
       leads ≡ₚ doc ∧ jsonValue lead ∈ leads).
Proof.
  intros Hsave.
  destruct (saveMatchLead_cases lead e doc Hsave) as (stored & Hfile & Hdoc).
  split; [by exists stored|]. split.
  - intros next e' (Hmkdir & Hwrite & _) Hread.
    unfold saveMatchLead. rewrite Hmkdir, Hwrite, Hread. cbn [negb].
    rewrite List.map_app. cbn [List.map]. do 2 f_equal.
    apply jsonValue_stable. rewrite Hdoc.
    change [jsonValue lead] with (List.map jsonValue [lead]).
    rewrite <- List.map_app. apply jsonValue_written.
  - intros leads Hread%(sortArray_Permutation byCreatedAtDesc).
    split; [done|]. rewrite Hread, Hdoc. apply elem_of_app. right.
    by apply list_elem_of_singleton.
Qed.

End SaveThenRead.

(** ** The lead store: reading, and the admin views *)

Lemma escapeQuotes_cons c s :
  escapeQuotes (c :: s)
    = (if (c =? QUOTE)%N then [QUOTE; QUOTE] else [c]) ++ escapeQuotes s.
Proof. reflexivity. Qed.

Lemma unescape_escapeQuotes s : unescapeQuotes (escapeQuotes s) = s.
Proof.
  induction s as [|c s IH]; [done|]. rewrite escapeQuotes_cons.
  destruct (c =? QUOTE)%N eqn:Hc.
  - apply N.eqb_eq in Hc as ->. cbn [app unescapeQuotes].
    change (QUOTE =? QUOTE)%N with true. cbn [andb]. by rewrite IH.
  - cbn [app unescapeQuotes]. destruct (escapeQuotes s) as [|d t] eqn:He.
    + destruct s as [|x s]; [done|]. rewrite escapeQuotes_cons in He.
      by destruct (x =? QUOTE)%N.
    + rewrite Hc. cbn [andb]. by rewrite IH.
Qed.

Lemma join_lines first rows :
  join [NEWLINE] (first :: rows)
  = first ++ concat ((λ row, NEWLINE :: row) <$> rows).
Proof.
  revert first. induction rows as [|row rows IH]; intros first.
  - simpl. by rewrite app_nil_r.
  - change (join [NEWLINE] (first :: row :: rows))
      with (first ++ [NEWLINE] ++ join [NEWLINE] (row :: rows)).
    by rewrite IH.
Qed.

Section AdminViews.
Context `{!Runtime}.

Lemma keys_readable_or_not l :
  Forall (λ lead, is_Some (createdAtKey lead)) l
  ∨ Exists (λ lead, createdAtKey lead = None) l.
Proof.
  induction l as [|x l [IH|IH]].
  - left. constructor.
  - destruct (createdAtKey x) eqn:Hx.
    + left. constructor; [|done]. rewrite Hx. by eexists.
    + right. by apply Exists_cons_hd.
  - right. by apply Exists_cons_tl.
Qed.

Lemma readable_keys l :
  Forall (λ lead, is_Some (createdAtKey lead)) l →
  ∃ ks, Forall2 (λ lead k, createdAtKey lead = Some k) l ks.
Proof.
  induction 1 as [|x l [k Hk] _ [ks IH]]; [by exists []|].
  exists (k :: ks). by constructor.
Qed.

(** A sort that went through has read every key, unless there was nothing
    to compare. *)
Lemma sortBy_Some_inv l sorted :
  sortBy byCreatedAtDesc l = Some sorted →
  Forall (λ lead, is_Some (createdAtKey lead)) l ∨ (length l ≤ 1)%nat.
Proof.
  revert sorted. induction l as [|x l IH]; intros sorted; [left; constructor|].
  rewrite sortBy_cons.
  destruct (sortBy byCreatedAtDesc l) as [s'|] eqn:Hsort; [|done].
  cbn [mbind option_bind]. intros Hins.
  pose proof (sortBy_Permutation _ _ _ Hsort) as Hperm.
  destruct s' as [|y rest].
  - apply Permutation_nil in Hperm as ->. right. simpl. lia.
  - rewrite insertSorted_cons in Hins.
    destruct (byCreatedAtDesc x y) as [c|] eqn:Hc; [|done].
    unfold byCreatedAtDesc in Hc.
    destruct (createdAtKey y) as [ky|] eqn:Hy; [|done].
    destruct (createdAtKey x) as [kx|] eqn:Hx; [|done].
    left. constructor; [by eexists|].
    destruct (IH _ eq_refl) as [Hall|Hshort]; [done|].
    destruct l as [|z [|? ?]]; [constructor| |simpl in Hshort; lia].
    apply Permutation_singleton_r in Hperm. injection Hperm as -> _.
    constructor; [|constructor]. rewrite Hy. by eexists.
Qed.

(** The sort throws exactly when there is something to compare and one of
    the keys cannot be read. *)
Lemma sortBy_throws l :
  sortBy byCreatedAtDesc l = None
  ↔ (2 ≤ length l)%nat ∧ Exists (λ lead, createdAtKey lead = None) l.
Proof.
  split.
  - intros Hnone. split.
    + destruct l as [|x [|y l]]; [done|done|simpl; lia].
    + destruct (keys_readable_or_not l) as [Hall|?]; [|done].
      destruct (readable_keys l Hall) as [ks Hks].
      destruct (sortBy_keyed _ (λ _ _ Hk, Hk) l ks Hks) as (sorted & ? & Hs & _).
      congruence.
  - intros [Hlen Hex].
    destruct (sortBy byCreatedAtDesc l) as [sorted|] eqn:Hs; [|done].
    destruct (sortBy_Some_inv l sorted Hs) as [Hall|?]; [|lia].
    exfalso. clear Hs Hlen. induction Hex as [x l Hx|x l _ IH].
    + apply Forall_cons in Hall as [[k Hk] _]. congruence.
    + apply Forall_cons in Hall as [_ Hall]. by apply IH.
Qed.

(** X9. A document whose leads already stand newest first, each [createdAt]
    a string that does not collate before that of any later lead (a
    missing [createdAt] counting as the empty string), is answered as it
    is.  Nothing is assumed of the collation. *)
Theorem readMatchLeads_keeps_sorted_document
    (parsed : list value) (stamps : list jsstring) :
  Forall2 stamped parsed stamps →
  descending stamps →
  readMatchLeads (Parsed (VArr parsed)) = Some parsed.
Proof.
  intros Hstamps Hsorted. rewrite (readMatchLeads_stamped parsed stamps Hstamps).
  by apply (sortBy_descending stamped stamped_key parsed stamps).
Qed.

(** The comparator throws on an element it is handed exactly when the
    element is [null] or [String] throws on its [createdAt]. *)
Lemma comparator_throws lead :
  isUndefined lead = false ∧ createdAtKey lead = None
  ↔ lead = VNull
    ∨ toString (orElse (getProp lead (lit "createdAt")) (VStr [])) = None.
Proof. destruct lead; cbn [createdAtKey isUndefined]; naive_solver. Qed.

(** X10. Reading throws exactly in three cases: a read error whose code is
    not ENOENT, a text that does not parse, and an array of two or more
    entries to compare one of which makes the comparator throw, being
    [null] or having a [createdAt] that [String] throws on (an object with
    a property [toString], or an array holding one).  An array of one entry
    is never compared and is answered whatever it holds. *)
Theorem readMatchLeads_failures (r : readResult) :
  readMatchLeads r = None
  ↔ (∃ code, r = ReadError code ∧ code ≠ ENOENT)
    ∨ r = ParseError
    ∨ ∃ parsed lead,
        r = Parsed (VArr parsed)
        ∧ (2 ≤ length (comparedItems parsed))%nat
        ∧ lead ∈ parsed
        ∧ (lead = VNull
           ∨ toString (orElse (getProp lead (lit "createdAt")) (VStr []))
             = None).
Proof.
  destruct r as [code| |doc]; cbn [readMatchLeads].
  - destruct (decide (code = ENOENT)) as [->|Hcode].
    + rewrite bool_decide_eq_true_2 by done. naive_solver.
    + rewrite bool_decide_eq_false_2 by done. naive_solver.
  - naive_solver.
  - destruct doc as [| | | | |parsed|]; try naive_solver.
    assert (sortArray byCreatedAtDesc parsed = None
            ↔ sortBy byCreatedAtDesc (comparedItems parsed) = None) as ->.
    { unfold sortArray.
      by destruct (sortBy byCreatedAtDesc (comparedItems parsed)). }
    rewrite sortBy_throws. split.
    + intros [Hlen Hex]. right. right.
      apply Exists_exists in Hex as (lead & Hin & Hkey).
      apply list_elem_of_In, filter_In in Hin as [Hin Hdef].
      apply negb_true_iff in Hdef.
      exists parsed, lead. split; [done|]. split; [done|].
      split; [by apply list_elem_of_In|]. by apply comparator_throws.
    + intros [(? & ? & _)|[?|(p & lead & [= <-] & Hlen & Hin & Hkey)]];
        try done.
      split; [done|]. apply comparator_throws in Hkey as [Hdef Hkey].
      apply Exists_exists. exists lead. split; [|done].
      apply list_elem_of_In, filter_In. split; [by apply list_elem_of_In|].
      by apply negb_true_iff.
Qed.

(** X11. The JSON view hands out the whole document.  Whenever it answers
    leads for a stored array, these are the entries of the array as
    [JSON.stringify] prints them, each exactly once, and [count] is the
    number of entries.  It does answer them when every lead has a string
    as [createdAt] or no [createdAt].  With no lead file it answers no
    leads and count 0. *)
Theorem adminLeadsHandler_returns_every_lead
    (ADMIN_TOKEN : jsstring) (header : option jsstring)
    (parsed : list value) :
  isAdminAuthorized ADMIN_TOKEN header = true →
  (∀ leads count,
     adminLeadsHandler ADMIN_TOKEN header (Parsed (VArr parsed))
       = Leads leads count →
     leads ≡ₚ List.map jsonValue parsed ∧ count = length parsed)
  ∧ (∀ stamps, Forall2 stamped parsed stamps →
       ∃ leads,
         adminLeadsHandler ADMIN_TOKEN header (Parsed (VArr parsed))
           = Leads leads (length parsed))
  ∧ adminLeadsHandler ADMIN_TOKEN header (ReadError ENOENT) = Leads [] 0.
Proof.
  intros Hauth. unfold adminLeadsHandler. rewrite Hauth. cbn [negb].
  split; [|split; [|done]].
  - intros leads count. cbn [readMatchLeads].
    destruct (sortArray byCreatedAtDesc parsed) as [sorted|] eqn:Hsort;
      [|done].
    apply sortArray_Permutation in Hsort. intros [= <- <-].
    split; [by apply Permutation_map|by rewrite Hsort].
  - intros stamps Hstamps.
    rewrite (readMatchLeads_stamped parsed stamps Hstamps).
    destruct (sortBy_keyed stamped stamped_key parsed stamps Hstamps)
      as (sorted & ks & Hsort & _).
    rewrite Hsort. exists (List.map jsonValue sorted). f_equal.
    apply Permutation_length. by apply (sortBy_Permutation byCreatedAtDesc).
Qed.

(** X12. Without authorization nothing of the store gets out: both admin
    routes answer 401 whatever the file holds, readable or not, and they
    answer 401 only then. *)
Theorem admin_routes_unauthorized
    (ADMIN_TOKEN : jsstring) (header : option jsstring) (r : readResult) :
  (isAdminAuthorized ADMIN_TOKEN header = false →
     adminLeadsHandler ADMIN_TOKEN header r = Unauthorized
     ∧ adminCsvHandler ADMIN_TOKEN header r = CsvUnauthorized)
  ∧ (adminStatus (adminLeadsHandler ADMIN_TOKEN header r) = 401%Z
     ↔ isAdminAuthorized ADMIN_TOKEN header = false)
  ∧ (csvStatus (adminCsvHandler ADMIN_TOKEN header r) = 401%Z
     ↔ isAdminAuthorized ADMIN_TOKEN header = false).
Proof.
  unfold adminLeadsHandler, adminCsvHandler.
  destruct (isAdminAuthorized ADMIN_TOKEN header); cbn [negb].
  - split; [done|]. split.
    + by destruct (readMatchLeads r).
    + destruct (readMatchLeads r) as [leads|]; [|done].
      by destruct (mapM csvRow leads).
  - done.
Qed.

(** X13. The quoted fields of a CSV row can be read back: between its
    two double quotes the field holds the text with every double quote
    doubled, and halving the doubled quotes gives the text itself, so no
    two different emails or timestamps are exported alike.  The field
    fails only where [String] throws. *)
Theorem csvText_reads_back (lead : value) (key : jsstring) :
  match toString (orElse (getProp lead key) (VStr [])) with
  | Some text =>
      ∃ quoted,
        csvText lead key = Some ([QUOTE] ++ quoted ++ [QUOTE])
        ∧ unescapeQuotes quoted = text
  | None => csvText lead key = None
  end.
Proof.
  unfold csvText.
  destruct (toString (orElse (getProp lead key) (VStr []))) as [text|];
    [|done].
  exists (escapeQuotes text). split; [done|]. apply unescape_escapeQuotes.
Qed.

(** X14. The export of a stored array.  When every lead has a string as
    [createdAt] or none, and every lead can be put in a row, an authorized
    export is the header line followed by one line per stored lead: the
    rows of the stored leads, each lead exactly once, in descending order
    of [createdAt] under a collation that is a total preorder.  With no
    lead file it is the header line alone. *)
Theorem adminCsvHandler_lines
    (ADMIN_TOKEN : jsstring) (header : option jsstring)
    (parsed : list value) (stamps : list jsstring) :
  isAdminAuthorized ADMIN_TOKEN header = true →
  Forall2 stamped parsed stamps →
  Forall (λ lead, is_Some (csvRow lead)) parsed →
  (∃ leads sorted rows,
     leads ≡ₚ parsed
     ∧ Forall2 stamped leads sorted
     ∧ (collationTotal → collationTransitive → descending sorted)
     ∧ Forall2 (λ lead row, csvRow lead = Some row) leads rows
     ∧ adminCsvHandler ADMIN_TOKEN header (Parsed (VArr parsed))
       = Csv (csvHeader ++ concat ((λ row, NEWLINE :: row) <$> rows)))
  ∧ adminCsvHandler ADMIN_TOKEN header (ReadError ENOENT) = Csv csvHeader.
Proof.
  intros Hauth Hstamps Hrows. unfold adminCsvHandler. rewrite Hauth.
  cbn [negb]. split; [|done].
  rewrite (readMatchLeads_stamped parsed stamps Hstamps).
  destruct (sortBy_keyed stamped stamped_key parsed stamps Hstamps)
    as (leads & sorted & Hsort & Hkeyed & _ & Hdesc).
  pose proof (sortBy_Permutation _ _ _ Hsort) as Hperm. rewrite Hsort.
  assert (is_Some (mapM csvRow leads)) as [rows Hmap].
  { apply mapM_is_Some. by rewrite Hperm. }
  rewrite Hmap. exists leads, sorted, rows.
  split; [done|]. split; [done|]. split; [done|].
  split; [by apply mapM_Some|]. by rewrite join_lines.
Qed.

End AdminViews.

(** ** POST /api/match-lead: the answers and what gets stored *)

Section MatchLeadOutcome.
Context `{!Runtime}.

(** The lead handed to [saveMatchLead] when the answers are valid. *)
Lemma leadOf_valid body email consent score percentage createdAt :
  validAnswers body = Some true →
  ∃ z1 z2 z3 z4,
    ((1 ≤ z1 ≤ 5) ∧ (1 ≤ z2 ≤ 5) ∧ (1 ≤ z3 ≤ 5) ∧ (1 ≤ z4 ≤ 5))%Z
    ∧ leadOf email consent (answersOf body) score percentage createdAt
      = Some (VObj [ (lit "email", VStr email);
                     (lit "consent", VBool consent);
                     (lit "answers",
                      VObj [ (lit "q1", VNum (Integral z1));
                             (lit "q2", VNum (Integral z2));
                             (lit "q3", VNum (Integral z3));
                             (lit "q4", VNum (Integral z4)) ]);
                     (lit "score", VNum score);
                     (lit "percentage", VNum percentage);
                     (lit "createdAt", VStr createdAt);
                     (lit "source", VStr (lit "match-form")) ]).
Proof.
  intros Hvalid. pose proof (proj1 (validAnswers_spec body) Hvalid) as Hkeys.
  destruct (Hkeys (lit "q1")) as (z1 & ? & Hq1); [by left|].
  destruct (Hkeys (lit "q2")) as (z2 & ? & Hq2); [by right; left|].
  destruct (Hkeys (lit "q3")) as (z3 & ? & Hq3); [by right; right; left|].
  destruct (Hkeys (lit "q4")) as (z4 & ? & Hq4);
    [by right; right; right; left|].
  exists z1, z2, z3, z4. split; [done|].
  unfold leadOf, answerKeys. cbn [mapM]. by rewrite Hq1, Hq2, Hq3, Hq4.
Qed.

(** X15. The three answers of the handler.  It answers 200 exactly when
    every field can be read, the three checks pass and the disk takes the
    write; 500 exactly when reading a field throws, or the checks pass and
    the disk fails; and 400 exactly when every field can be read and one
    of the checks fails.  The file is written exactly when the answer is
    200. *)
Theorem matchLeadHandler_status (body : value) (e : env) :
  (status (matchLeadHandler body e) = 200%Z
   ↔ (∃ email, emailOf body = Some email ∧ emailOk email = true)
     ∧ is_Some (scoreOf body) ∧ is_Some (percentageOf body)
     ∧ consentOf body = true ∧ validAnswers body = Some true
     ∧ writable e)
  ∧ (status (matchLeadHandler body e) = 500%Z
     ↔ (emailOf body = None ∨ scoreOf body = None
        ∨ percentageOf body = None ∨ validAnswers body = None)
       ∨ ((∃ email, emailOf body = Some email ∧ emailOk email = true)
          ∧ consentOf body = true ∧ validAnswers body = Some true
          ∧ ¬ writable e))
  ∧ (status (matchLeadHandler body e) = 400%Z
     ↔ ∃ email valid,
         emailOf body = Some email
         ∧ is_Some (scoreOf body) ∧ is_Some (percentageOf body)
         ∧ validAnswers body = Some valid
         ∧ (emailOk email = false ∨ consentOf body = false
            ∨ valid = false))
  ∧ (is_Some (written (matchLeadHandler body e))
     ↔ status (matchLeadHandler body e) = 200%Z).
Proof.
  unfold matchLeadHandler.
  destruct (readFields body) as [[[[email score] percentage] valid]|]
    eqn:Hfields.
  - apply readFields_Some in Hfields as (Hemail & Hscore & Hpct & Hvalid).
    rewrite Hemail, Hscore, Hpct, Hvalid. unfold is_Some.
    destruct (emailOk email) eqn:Hok; cbn [negb];
      [|cbn [status written]; settle_outcome].
    destruct (consentOf body) eqn:Hconsent; cbn [negb];
      [|cbn [status written]; settle_outcome].
    destruct valid; cbn [negb]; [|cbn [status written]; settle_outcome].
    destruct (leadOf_valid body email true score percentage (now e) Hvalid)
      as (z1 & z2 & z3 & z4 & _ & ->).
    cbn [mbind option_bind].
    pose proof (saveMatchLead_writable
      (VObj [ (lit "email", VStr email); (lit "consent", VBool true);
              (lit "answers",
               VObj [ (lit "q1", VNum (Integral z1));
                      (lit "q2", VNum (Integral z2));
                      (lit "q3", VNum (Integral z3));
                      (lit "q4", VNum (Integral z4)) ]);
              (lit "score", VNum score);
              (lit "percentage", VNum percentage);
              (lit "createdAt", VStr (now e));
              (lit "source", VStr (lit "match-form")) ]) e) as Hdisk.
    unfold is_Some in Hdisk.
    match goal with
    | |- context [saveMatchLead ?lead e] =>
        destruct (saveMatchLead lead e) as [leads|]
    end; cbn [status written].
    + assert (writable e) by (apply Hdisk; by eexists). clear Hdisk.
      settle_outcome.
    + assert (¬ writable e) by (intros [? ?]%Hdisk; done). clear Hdisk.
      settle_outcome.
  - apply readFields_None in Hfields. cbn [status written]. unfold is_Some.
    settle_outcome.
Qed.

(** X17. What a stored lead looks like.  Whenever the handler writes, the
    last element written is the new lead, and this lead holds an email of
    the form local@host.tld (no white space, a single [@], a dot inside the
    host part), consent [true], the request's time as [createdAt], the
    source tag "match-form", and for each of q1..q4 an integer from 1 to
    5. *)
Theorem matchLeadHandler_stored_lead
    (body : value) (e : env) (leads : list value) :
  written (matchLeadHandler body e) = Some leads →
  ∃ lead email localPart host tld,
    last leads = Some lead
    ∧ getProp lead (lit "email") = VStr email
    ∧ email = localPart ++ [64%N] ++ host ++ [46%N] ++ tld
    ∧ localPart ≠ [] ∧ host ≠ [] ∧ tld ≠ []
    ∧ Forall (λ c, notSpaceOrAt c = true) (localPart ++ host ++ tld)
    ∧ getProp lead (lit "consent") = VBool true
    ∧ getProp lead (lit "createdAt") = VStr (now e)
    ∧ getProp lead (lit "source") = VStr (lit "match-form")
    ∧ ∀ key, key ∈ answerKeys →
        ∃ z, (1 ≤ z ≤ 5)%Z
             ∧ getProp (getProp lead (lit "answers")) key = VNum (Integral z).
Proof.
  unfold matchLeadHandler.
  destruct (readFields body) as [[[[email score] percentage] valid]|]
    eqn:Hfields; [|done].
  apply readFields_Some in Hfields as (_ & _ & _ & Hvalid).
  destruct (emailOk email) eqn:Hemail; cbn [negb written]; [|done].
  destruct (consentOf body) eqn:Hconsent; cbn [negb written]; [|done].
  destruct valid; cbn [negb written]; [|done].
  destruct (leadOf_valid body email true score percentage (now e) Hvalid)
    as (z1 & z2 & z3 & z4 & (? & ? & ? & ?) & ->).
  cbn [mbind option_bind].
  match goal with
  | |- context [saveMatchLead ?lead e] =>
      destruct (saveMatchLead lead e) as [w|] eqn:Hsave
  end; cbn [written]; [|done].
  intros [= <-].
  apply emailPattern_spec in Hemail
    as (localPart & host & tld & Heq & ? & ? & ? & ?).
  apply saveMatchLead_cases in Hsave as (stored & _ & ->).
  eexists _, email, localPart, host, tld.
  split; [by rewrite last_snoc|].
  split; [reflexivity|]. split; [done|]. do 4 (split; [done|]).
  split; [reflexivity|].
  split; [by destruct score, percentage|].
  split; [by destruct score, percentage|].
  intros key Hkey. unfold answerKeys in Hkey.
  repeat (apply elem_of_cons in Hkey as [->|Hkey];
          [eexists; split; [|reflexivity]; done|]).
  by apply elem_of_nil in Hkey.
Qed.





End MatchLeadOutcome.

(** ** POST /api/chat: the accepted history *)

Lemma historyItem_role item m :
  historyItem item = Some m → msgRole m ≠ System.
Proof.
  unfold historyItem. destruct (truthy item); [|done].
  destruct (getProp item (lit "role")) as [| | | |r| |]; try done.
  destruct (getProp item (lit "content")) as [| | | |c| |]; try done.
  repeat case_bool_decide; by intros [= <-].
Qed.

Lemma length_capHistory_eq h : length (capHistory h) = (length h `min` 12)%nat.
Proof.
  unfold capHistory. destruct (Nat.ltb_spec 12 (length h)); [|lia].
  rewrite length_drop. lia.
Qed.

Lemma capHistory_drop h : capHistory h = drop (length h - 12) h.
Proof.
  unfold capHistory. destruct (Nat.ltb_spec 12 (length h)); [done|].
  by replace (length h - 12)%nat with 0%nat by lia.
Qed.

Lemma validated_roles items v :
  mapM historyItem items = Some v → Forall (λ m, msgRole m ≠ System) v.
Proof.
  intros Hv%mapM_Some. induction Hv; constructor; [|done].
  by eapply historyItem_role.
Qed.

Lemma mapM_historyItem_None items :
  mapM historyItem items = None →
  Exists (λ item, historyItem item = None) items.
Proof.
  induction items as [|x items IH]; [done|]. cbn.
  destruct (historyItem x) eqn:Hx; cbn; [|by left].
  destruct (mapM historyItem items); cbn; [done|].
  intros _. right. by apply IH.
Qed.

Lemma acceptedHistory_safe incomingHistory h :
  acceptedHistory incomingHistory = Some h →
  (length h ≤ 12)%nat ∧ Forall (λ m, msgRole m ≠ System) h.
Proof.
  unfold acceptedHistory, validateHistory.
  destruct incomingHistory as [| | | | |items|]; try done.
  destruct (mapM historyItem items) as [v|] eqn:Hv; [|done].
  cbn [fmap option_fmap option_map]. intros [= <-].
  unfold truncateHistory. rewrite length_map. split.
  - pose proof (length_capHistory_eq v). lia.
  - apply validated_roles in Hv. rewrite capHistory_drop.
    apply (Forall_drop _ (length v - 12)) in Hv.
    induction Hv; by constructor.
Qed.

(** X18. An accepted history holds at most 12 entries, none of them a
    system message and none with more than 800 units of content: a client
    cannot hand in a system turn, and cannot grow the upstream payload
    beyond 12 times 800 units of history. *)
Theorem acceptedHistory_bounds (incomingHistory : value) (h : list chatMessage) :
  acceptedHistory incomingHistory = Some h →
  (length h ≤ 12)%nat
  ∧ Forall (λ m, msgRole m ≠ System ∧ (length (content m) ≤ 800)%nat) h.
Proof.
  unfold acceptedHistory, validateHistory.
  destruct incomingHistory as [| | | | |items|]; try done.
  destruct (mapM historyItem items) as [v|] eqn:Hv; [|done].
  cbn [fmap option_fmap option_map]. intros [= <-].
  unfold truncateHistory. rewrite length_map. split.
  - pose proof (length_capHistory_eq v). lia.
  - apply validated_roles in Hv. rewrite capHistory_drop.
    apply (Forall_drop _ (length v - 12)) in Hv.
    induction Hv as [|m l Hm _ IH]; [done|].
    constructor; [|done]. cbn [msgRole content]. split; [done|].
    rewrite length_take. lia.
Qed.

(** X19. History validation is all or nothing, and the cap keeps the end.
    The history is discarded as a whole when it is not an array or when
    any entry fails the test; otherwise the accepted history is made of
    the last 12 entries, in order, each with its role and the first 800
    units of its content. *)
Theorem acceptedHistory_all_or_last_twelve (incomingHistory : value) :
  (acceptedHistory incomingHistory = None
   ↔ (∀ items, incomingHistory ≠ VArr items)
     ∨ ∃ items, incomingHistory = VArr items
                ∧ Exists (λ item, historyItem item = None) items)
  ∧ (∀ items h, incomingHistory = VArr items →
       acceptedHistory incomingHistory = Some h →
       Forall2 (λ item m, ∃ v, historyItem item = Some v
                               ∧ msgRole m = msgRole v
                               ∧ content m = take 800 (content v))
         (drop (length items - 12) items) h).
Proof.
  unfold acceptedHistory, validateHistory. split.
  - destruct incomingHistory as [| | | | |items|];
      try (split; [intros _; by left|done]).
    destruct (mapM historyItem items) as [v|] eqn:Hv;
      cbn [fmap option_fmap option_map].
    + split; [done|]. intros [Hno|(items' & [= <-] & Hex)];
        [by destruct (Hno items)|].
      assert (is_Some (mapM historyItem items)) as Hsome by by eexists.
      apply mapM_is_Some in Hsome. apply Exists_exists in Hex as (x & Hx & Hnone).
      rewrite Forall_forall in Hsome. specialize (Hsome x Hx).
      cbn in Hsome. rewrite Hnone in Hsome. by destruct Hsome.
    + split; [|done]. intros _. right. exists items. split; [done|].
      by apply mapM_historyItem_None.
  - intros items h ->.
    destruct (mapM historyItem items) as [v|] eqn:Hv; [|done].
    cbn [fmap option_fmap option_map]. intros [= <-].
    apply mapM_Some in Hv. rewrite capHistory_drop.
    rewrite <- (Forall2_length _ _ _ Hv). unfold truncateHistory.
    apply Forall2_fmap_r. apply (Forall2_drop _ _ _ (length items - 12)) in Hv.
    eapply Forall2_impl; [exact Hv|]. intros item m Hitem. by exists m.
Qed.

Lemma acceptedHistory_witness :
  (length repeatedTurnAccepted ≤ 12)%nat
  ∧ Forall (λ m, msgRole m ≠ System ∧ (length (content m) ≤ 800)%nat)
      repeatedTurnAccepted.
Proof. by apply (acceptedHistory_bounds repeatedTurnHistory). Defined.

(** ** POST /api/chat: what is sent upstream and what comes back *)

Section ChatUpstream.
Context (SYSTEM_PROMPT KNOWLEDGE_BLOCK : jsstring).

Lemma assembleMessages_shape message validatedHistory :
  trim message = message →
  (∀ h, validatedHistory = Some h →
        (length h ≤ 12)%nat ∧ Forall (λ m, msgRole m ≠ System) h) →
  ∃ rest,
    assembleMessages SYSTEM_PROMPT KNOWLEDGE_BLOCK message validatedHistory
      = systemMessages SYSTEM_PROMPT KNOWLEDGE_BLOCK ++ rest
    ∧ Forall (λ m, msgRole m ≠ System) rest
    ∧ Exists (repeatsMessage message) rest
    ∧ (1 ≤ length rest ≤ 13)%nat.
Proof.
  intros Htrim Hh. unfold assembleMessages.
  set (user := {| msgRole := User; content := message |}).
  assert (repeatsMessage message user) as Huser by done.
  assert (msgRole user ≠ System) as Hrole by done.
  destruct validatedHistory as [h|].
  - destruct (Hh h eq_refl) as [Hlen Hroles].
    destruct (Nat.ltb_spec 0 (length h)).
    + destruct (hasLatestUser message h) eqn:Hhas; cbn [negb].
      * exists h. split; [done|]. split; [done|].
        split; [by apply hasLatestUser_Exists|lia].
      * exists (h ++ [user]). rewrite <- app_assoc. split; [done|].
        split; [apply Forall_app; by repeat constructor|].
        split; [apply Exists_app; right; by left|].
        rewrite length_app. simpl. lia.
    + exists [user]. split; [done|]. split; [by repeat constructor|].
      split; [by left|simpl; lia].
  - exists [user]. split; [done|]. split; [by repeat constructor|].
    split; [by left|simpl; lia].
Qed.

(** X20. Whatever the request body, when messages are sent upstream the
    request's message (the first truthy one of [message], [prompt] and
    [text]) is a string that is not blank, and the messages are the two
    system prompts followed by 1 to 13 further messages, none of which is a
    system message, and among which there is a user turn whose trimmed
    content is that message, trimmed. *)
Theorem chatHandler_upstream_messages
    (body : value) (messages : list chatMessage) :
  chatHandler SYSTEM_PROMPT KNOWLEDGE_BLOCK body = Upstream messages →
  ∃ s rest,
    orElse (orElse (getProp body (lit "message"))
                   (getProp body (lit "prompt")))
           (getProp body (lit "text")) = VStr s
    ∧ trim s ≠ []
    ∧ messages = systemMessages SYSTEM_PROMPT KNOWLEDGE_BLOCK ++ rest
    ∧ Forall (λ m, msgRole m ≠ System) rest
    ∧ Exists (repeatsMessage (trim s)) rest
    ∧ (1 ≤ length rest ≤ 13)%nat.
Proof.
  unfold chatHandler. destruct (truthy body) eqn:Hbody.
  - destruct (orElse _ (getProp body (lit "text")))
      as [| | | |s| |] eqn:Hraw; try done.
    destruct (isEmpty (trim s)) eqn:Hempty; [done|]. intros [= <-].
    destruct (assembleMessages_shape (trim s)
                (acceptedHistory (getProp body (lit "history"))))
      as (rest & Heq & Hroles & Hex & Hlen).
    + apply trim_idemp.
    + intros h Hh. by apply acceptedHistory_safe in Hh.
    + exists s, rest. split; [done|]. split; [by destruct (trim s)|]. done.
  - destruct body as [| | | |s| |]; try done. by destruct s.
Qed.

(** X21. [message] wins over [prompt] and [text] as soon as it is a
    non-empty string, also when it is nothing but white space: then the
    request is refused as having no message, whatever [prompt] and [text]
    hold. *)
Theorem chatHandler_message_first (body : value) (s : jsstring) :
  getProp body (lit "message") = VStr s → s ≠ [] →
  chatHandler SYSTEM_PROMPT KNOWLEDGE_BLOCK body
    = if blank s then NoMessage
      else Upstream
             (assembleMessages SYSTEM_PROMPT KNOWLEDGE_BLOCK (trim s)
                (acceptedHistory (getProp body (lit "history")))).
Proof.
  intros Hmessage Hs. unfold chatHandler.
  assert (truthy body = true) as -> by by destruct body.
  rewrite Hmessage. unfold orElse at 2. cbn [truthy].
  assert (isEmpty s = false) as -> by by destruct s.
  cbn [negb]. unfold orElse. cbn [truthy].
  assert (isEmpty s = false) as -> by by destruct s.
  cbn [negb]. destruct (blank s) eqn:Hblank.
  - apply trim_nil in Hblank. by rewrite Hblank.
  - destruct (isEmpty (trim s)) eqn:Hempty; [|done].
    apply isEmpty_true, trim_nil in Hempty. congruence.
Qed.

End ChatUpstream.

Section ChatReply.
Context `{!Runtime}.

Lemma finalizeReply_at_most text maxChars maxSentences :
  (length (finalizeReply text maxChars maxSentences) ≤ maxChars + 1)%nat.
Proof.
  unfold finalizeReply. destruct text as [| | | |s| |]; simpl; try lia.
  destruct (isEmpty s); [simpl; lia|].
  destruct (isEmpty (trim (collapseSpaces s))); [simpl; lia|].
  set (c := clip _ _).
  assert (cleanStart c) as Hclean
    by apply cleanStart_clip, cleanStart_candidateOf, cleanStart_trim.
  pose proof (length_clip (candidateOf (trim (collapseSpaces s)) maxSentences)
                maxChars) as Hlen. fold c in Hlen.
  destruct (terminate_cases c Hclean) as [Hle|[-> _]]; [lia|].
  rewrite length_app. simpl. lia.
Qed.

(** X22. The answer to the client.  It is 500 when the upstream call or
    the reading of its body throws, 502 when upstream did not answer ok or
    the content [choices[0].message.content] is missing or falsy, and 200
    otherwise; a reply sent with 200 has at most 521 units and is empty or
    ends with '.', '!' or '?'. *)
Theorem chatReply_answers (upstream : upstreamResult) :
  (chatStatus (chatReply upstream) = 500%Z
   ↔ upstream = FetchThrows ∨ upstream = BodyUnreadable)
  ∧ (chatStatus (chatReply upstream) = 502%Z
     ↔ ∃ ok data, upstream = Answered ok data
                  ∧ (ok = false ∨ truthy (rawReplyOf data) = false))
  ∧ (∀ reply, chatReply upstream = Reply reply →
       (length reply ≤ 521)%nat
       ∧ (reply = [] ∨ endsWithStop reply = true)).
Proof.
  unfold chatReply. destruct upstream as [| |ok data]; cbn [chatStatus].
  - split; [naive_solver|]. split; [|done]. split; [done|].
    by intros (? & ? & ? & _).
  - split; [naive_solver|]. split; [|done]. split; [done|].
    by intros (? & ? & ? & _).
  - destruct ok; cbn [negb chatStatus].
    + destruct (truthy (rawReplyOf data)) eqn:Hraw; cbn [negb chatStatus].
      * split; [naive_solver|]. split.
        { split; [done|].
          intros (ok' & data' & [= <- <-] & [?|?]); congruence. }
        intros reply [= <-]. split; [apply finalizeReply_at_most|].
        unfold finalizeReply. destruct (rawReplyOf data) as [| | | |s| |];
          try by left.
        destruct (isEmpty s); [by left|].
        destruct (isEmpty (trim (collapseSpaces s))); [by left|].
        right. apply terminate_ends.
      * split; [naive_solver|]. split; [|done].
        split; [intros _; by exists true, data; split; [|right]|done].
    + split; [naive_solver|]. split; [|done].
      split; [intros _; by exists false, data; split; [|left]|done].
Qed.

(** X23. A 200 answer can carry an empty reply: this happens exactly when
    upstream answered ok with a content that passes the emptiness test
    without holding text, that is a truthy value that is no string, or a
    string of white space only. *)
Theorem chatReply_empty_reply (ok : bool) (data : value) :
  chatReply (Answered ok data) = Reply []
  ↔ ok = true ∧ truthy (rawReplyOf data) = true
    ∧ ∀ s, rawReplyOf data = VStr s → blank s = true.
Proof.
  unfold chatReply. destruct ok; cbn [negb]; [|naive_solver].
  destruct (truthy (rawReplyOf data)) eqn:Hraw; cbn [negb]; [|naive_solver].
  unfold finalizeReply. destruct (rawReplyOf data) as [| | | |s| |];
    try naive_solver.
  destruct (isEmpty s) eqn:Hs; [by destruct s|].
  destruct (isEmpty (trim (collapseSpaces s))) eqn:Hn.
  - apply isEmpty_true, normalized_nil in Hn. naive_solver.
  - split.
    + intros [= Hnil]. by apply terminate_nonempty in Hnil.
    + intros (_ & _ & Hblank). specialize (Hblank s eq_refl).
      apply normalized_nil in Hblank. by rewrite Hblank in Hn.
Qed.

End ChatReply.

(** ** The email as stored *)

Lemma isAscii_trimStart s :
  forallb isAscii s = true → forallb isAscii (trimStart s) = true.
Proof.
  induction s as [|c s IH]; simpl; [done|].
  rewrite andb_true_iff. intros [Hc Hs].
  destruct (isWhiteSpace c); [by apply IH|]. simpl. by rewrite Hc, Hs.
Qed.

Lemma isAscii_trimEnd s :
  forallb isAscii s = true → forallb isAscii (trimEnd s) = true.
Proof.
  induction s as [|c s IH]; simpl; [done|].
  rewrite andb_true_iff. intros [Hc Hs]. specialize (IH Hs).
  destruct (trimEnd s) as [|d t].
  - destruct (isWhiteSpace c); simpl; [done|]. by rewrite Hc.
  - cbn [forallb] in *. by rewrite Hc, IH.
Qed.

Section StoredEmail.
Context `{!Runtime}.

(** X24. For an email sent as an ASCII string, what is tested and stored
    is the string without its surrounding white space and with A-Z turned
    into a-z: submissions that differ only in these are the same email. *)
Theorem emailOf_ascii (body : value) (s : jsstring) :
  getProp body (lit "email") = VStr s →
  forallb isAscii s = true →
  emailOf body = Some (asciiLower <$> trim s).
Proof.
  intros Hemail Hascii. unfold emailOf. rewrite Hemail.
  assert (toString (orElse (VStr s) (VStr [])) = Some s) as ->
    by by destruct s.
  cbn [mbind option_bind]. f_equal. unfold toLowerCase, trim.
  rewrite isAscii_trimEnd by by apply isAscii_trimStart.
  induction (trimEnd (trimStart s)) as [|c t IH]; [done|].
  simpl. by rewrite IH.
Qed.

End StoredEmail.

(** ** The further properties on sample data *)

Lemma emailOf_ascii_witness :
  emailOf (H := asciiRuntime)
    (submission (str "  Anna@Example.SE ") (VBool true)
       (int 1) (int 2) (int 3) (int 4))
  = Some (lit "anna@example.se").
Proof.
  rewrite (emailOf_ascii (H := asciiRuntime) _ (lit "  Anna@Example.SE "));
    reflexivity.
Defined.

Lemma saveMatchLead_appends_witness :
  (∃ stored,
     (fileRead (diskWith [olderLead]) = Parsed (VArr stored)
      ∨ (stored = []
         ∧ ∀ parsed, fileRead (diskWith [olderLead]) ≠ Parsed (VArr parsed)))
     ∧ [olderLead; jsonValue unscoredLead]
       = List.map jsonValue stored ++ [jsonValue unscoredLead])
  ∧ (∀ next e',
       writable e' →
       fileRead e' = Parsed (VArr [olderLead; jsonValue unscoredLead]) →
       saveMatchLead next e'
       = Some ([olderLead; jsonValue unscoredLead] ++ [jsonValue next]))
  ∧ (∀ leads,
       readMatchLeads (H := asciiRuntime)
         (Parsed (VArr [olderLead; jsonValue unscoredLead])) = Some leads →
       leads ≡ₚ [olderLead; jsonValue unscoredLead]
       ∧ jsonValue unscoredLead ∈ leads).
Proof.
  apply (saveMatchLead_appends (H := asciiRuntime)
           unscoredLead (diskWith [olderLead])).
  reflexivity.
Defined.

(** The score that is not a number is written as [null]. *)
Example saveMatchLead_writes_null :
  saveMatchLead unscoredLead (diskWith [olderLead])
    = Some [olderLead; jsonValue unscoredLead]
  ∧ getProp (jsonValue unscoredLead) (lit "score") = VNull.
Proof. split; reflexivity. Qed.

Lemma readMatchLeads_keeps_sorted_document_witness :
  readMatchLeads (H := asciiRuntime) (Parsed (VArr [newerLead; olderLead]))
  = Some [newerLead; olderLead].
Proof.
  apply (readMatchLeads_keeps_sorted_document (H := asciiRuntime) _
           [lit "2024-01-02T10:00:00.000Z"; lit "2024-01-01T10:00:00.000Z"]).
  - repeat constructor; by left.
  - repeat constructor; by vm_compute.
Defined.

(** A [createdAt] that [String] throws on makes the read fail as soon as
    there are two leads, and not when the lead is alone. *)
Example readMatchLeads_unprintable_createdAt :
  readMatchLeads (H := asciiRuntime)
    (Parsed (VArr [VObj [field "createdAt" unprintable]; VObj []])) = None
  ∧ readMatchLeads (H := asciiRuntime)
      (Parsed (VArr [VObj [field "createdAt" unprintable]]))
    = Some [VObj [field "createdAt" unprintable]].
Proof. split; vm_compute; reflexivity. Qed.

Lemma adminLeadsHandler_witness :
  (∀ leads count,
     adminLeadsHandler (H := asciiRuntime) (lit "s3cret")
       (Some (lit "s3cret")) (Parsed (VArr [olderLead; newerLead]))
       = Leads leads count →
     leads ≡ₚ List.map jsonValue [olderLead; newerLead]
     ∧ count = length [olderLead; newerLead])
  ∧ (∀ stamps, Forall2 stamped [olderLead; newerLead] stamps →
       ∃ leads,
         adminLeadsHandler (H := asciiRuntime) (lit "s3cret")
           (Some (lit "s3cret")) (Parsed (VArr [olderLead; newerLead]))
           = Leads leads (length [olderLead; newerLead]))
  ∧ adminLeadsHandler (H := asciiRuntime) (lit "s3cret")
      (Some (lit "s3cret")) (ReadError ENOENT) = Leads [] 0.
Proof.
  apply (adminLeadsHandler_returns_every_lead (H := asciiRuntime)
           (lit "s3cret") (Some (lit "s3cret")) [olderLead; newerLead]).
  reflexivity.
Defined.

(** The stored leads come back newest first. *)
Example adminLeadsHandler_newest_first :
  adminLeadsHandler (H := asciiRuntime) (lit "s3cret") (Some (lit "s3cret"))
    (Parsed (VArr [olderLead; newerLead]))
  = Leads [newerLead; olderLead] 2.
Proof. vm_compute. reflexivity. Qed.

Lemma admin_routes_unauthorized_witness :
  adminLeadsHandler (H := asciiRuntime) [] (Some [])
    (Parsed (VArr [leadAt "2024-01-01T10:00:00.000Z"])) = Unauthorized
  ∧ adminCsvHandler (H := asciiRuntime) [] (Some [])
      (Parsed (VArr [leadAt "2024-01-01T10:00:00.000Z"])) = CsvUnauthorized.
Proof.
  apply (admin_routes_unauthorized (H := asciiRuntime)). reflexivity.
Defined.

Lemma adminCsvHandler_lines_witness :
  (∃ leads sorted rows,
     leads ≡ₚ [olderLead; newerLead]
     ∧ Forall2 stamped leads sorted
     ∧ (collationTotal (H := asciiRuntime) →
        collationTransitive (H := asciiRuntime) →
        descending (H := asciiRuntime) sorted)
     ∧ Forall2 (λ lead row, csvRow (H := asciiRuntime) lead = Some row)
         leads rows
     ∧ adminCsvHandler (H := asciiRuntime) (lit "s3cret")
         (Some (lit "s3cret")) (Parsed (VArr [olderLead; newerLead]))
       = Csv (csvHeader ++ concat ((λ row, NEWLINE :: row) <$> rows)))
  ∧ adminCsvHandler (H := asciiRuntime) (lit "s3cret")
      (Some (lit "s3cret")) (ReadError ENOENT) = Csv csvHeader.
Proof.
  apply (adminCsvHandler_lines (H := asciiRuntime)
           (lit "s3cret") (Some (lit "s3cret")) [olderLead; newerLead]
           [lit "2024-01-01T10:00:00.000Z"; lit "2024-01-02T10:00:00.000Z"]).
  - reflexivity.
  - repeat constructor; by left.
  - repeat constructor; vm_compute; by eexists.
Defined.

(** The export of the two stored leads: the newer one first, the scores
    12.25 and 12.5 printed as they are. *)
Example adminCsvHandler_sample :
  adminCsvHandler (H := asciiRuntime) (lit "s3cret") (Some (lit "s3cret"))
    (Parsed (VArr [olderLead; newerLead]))
  = Csv (csvHeader
           ++ [NEWLINE; QUOTE] ++ lit "c@d.se" ++ [QUOTE]
           ++ lit ",12.25,60," ++ [QUOTE] ++ lit "2024-01-02T10:00:00.000Z"
           ++ [QUOTE] ++ lit ",1,2,3,4"
           ++ [NEWLINE; QUOTE] ++ lit "a@b.se" ++ [QUOTE]
           ++ lit ",12.5,60," ++ [QUOTE] ++ lit "2024-01-01T10:00:00.000Z"
           ++ [QUOTE] ++ lit ",1,2,3,4").
Proof. vm_compute. reflexivity. Qed.

(** A stored [null] makes the export fail, alone in the file as well. *)
Example adminCsvHandler_null_lead :
  adminCsvHandler (H := asciiRuntime) (lit "s3cret") (Some (lit "s3cret"))
    (Parsed (VArr [VNull])) = ExportFailed
  ∧ adminLeadsHandler (H := asciiRuntime) (lit "s3cret")
      (Some (lit "s3cret")) (Parsed (VArr [VNull])) = Leads [VNull] 1.
Proof. split; vm_compute; reflexivity. Qed.

Lemma matchLeadHandler_stored_lead_witness :
  ∃ lead email localPart host tld,
    last [storedLead "a@b.se" "2024-01-02T03:04:05.678Z" (Integral 12)]
      = Some lead
    ∧ getProp lead (lit "email") = VStr email
    ∧ email = localPart ++ [64%N] ++ host ++ [46%N] ++ tld
    ∧ localPart ≠ [] ∧ host ≠ [] ∧ tld ≠ []
    ∧ Forall (λ c, notSpaceOrAt c = true) (localPart ++ host ++ tld)
    ∧ getProp lead (lit "consent") = VBool true
    ∧ getProp lead (lit "createdAt") = VStr (now freshDisk)
    ∧ getProp lead (lit "source") = VStr (lit "match-form")
    ∧ ∀ key, key ∈ answerKeys →
        ∃ z, (1 ≤ z ≤ 5)%Z
             ∧ getProp (getProp lead (lit "answers")) key = VNum (Integral z).
Proof.
  apply (matchLeadHandler_stored_lead (H := asciiRuntime)
           (submission (str "a@b.se") (VBool true)
              (int 1) (int 2) (int 3) (int 4))
           freshDisk).
  vm_compute. reflexivity.
Defined.


(** The three answers on sample requests: a lead on a fresh disk, the same
    lead on a disk that refuses the write, and a lead whose [email] is an
    object with a property [toString]. *)
Example matchLeadHandler_status_samples :
  status (matchLeadHandler (H := asciiRuntime)
            (submission (str "a@b.se") (VBool true)
               (int 1) (int 2) (int 3) (int 4))
            freshDisk) = 200%Z
  ∧ status (matchLeadHandler (H := asciiRuntime)
              (submission (str "a@b.se") (VBool true)
                 (int 1) (int 2) (int 3) (int 4))
              {| canMkdir := true; fileRead := ReadError ENOENT;
                 canWrite := false; now := [] |}) = 500%Z
  ∧ status (matchLeadHandler (H := asciiRuntime)
              (submission unprintable (VBool true)
                 (int 1) (int 2) (int 3) (int 4))
              freshDisk) = 500%Z.
Proof. repeat split; vm_compute; reflexivity. Qed.

Lemma acceptedHistory_last_twelve_witness :
  Forall2 (λ item m, ∃ v, historyItem item = Some v
                          ∧ msgRole m = msgRole v
                          ∧ content m = take 800 (content v))
    (drop (15 - 12) (replicate 15
       (VObj [field "role" (str "user"); field "content" (str "x")])))
    (replicate 12 {| msgRole := User; content := lit "x" |}).
Proof.
  apply (proj2 (acceptedHistory_all_or_last_twelve
                  (VArr (replicate 15
                     (VObj [field "role" (str "user");
                            field "content" (str "x")]))))
           (replicate 15
              (VObj [field "role" (str "user"); field "content" (str "x")]))
           (replicate 12 {| msgRole := User; content := lit "x" |}));
    reflexivity.
Defined.

Lemma chatHandler_upstream_messages_witness :
  ∃ s rest,
    orElse (orElse (getProp repeatedTurnBody (lit "message"))
                   (getProp repeatedTurnBody (lit "prompt")))
           (getProp repeatedTurnBody (lit "text")) = VStr s
    ∧ trim s ≠ []
    ∧ systemMessages (lit "SYSTEM_PROMPT") (lit "KNOWLEDGE_BLOCK")
        ++ repeatedTurnAccepted
      = systemMessages (lit "SYSTEM_PROMPT") (lit "KNOWLEDGE_BLOCK") ++ rest
    ∧ Forall (λ m, msgRole m ≠ System) rest
    ∧ Exists (repeatsMessage (trim s)) rest
    ∧ (1 ≤ length rest ≤ 13)%nat.
Proof.
  apply (chatHandler_upstream_messages
           (lit "SYSTEM_PROMPT") (lit "KNOWLEDGE_BLOCK") repeatedTurnBody).
  reflexivity.
Defined.

Lemma chatHandler_message_first_witness :
  chatHandler (lit "SYSTEM_PROMPT") (lit "KNOWLEDGE_BLOCK")
    (VObj [field "message" (str "   "); field "prompt" (str "hello")])
  = NoMessage.
Proof.
  apply (chatHandler_message_first
           (lit "SYSTEM_PROMPT") (lit "KNOWLEDGE_BLOCK")
           (VObj [field "message" (str "   "); field "prompt" (str "hello")])
           (lit "   "));
    [reflexivity|discriminate].
Defined.

Lemma chatReply_answers_witness :
  (length (lit "Hi there.") ≤ 521)%nat
  ∧ (lit "Hi there." = [] ∨ endsWithStop (lit "Hi there.") = true).
Proof.
  apply (chatReply_answers (H := asciiRuntime)
           (Answered true
              (VObj [field "choices"
                       (VArr [VObj [field "message"
                                      (VObj [field "content"
                                               (str "Hi there. Hi there!")])]])]))).
  reflexivity.
Defined.
